(** * clt/progress.go: terminal progress indicators

    A shallow embedding of [progress.go] (package [clt]): the [Progress]
    record, its constructors and methods, and the three rendering loops
    [renderSpinner], [renderLoading] and [renderBar].

    - Go's [int] is a 64-bit two's-complement integer, modelled as [Z] with
      the wrap-around written out.
    - Go's [float64] is IEEE 754 binary64, modelled by the axiom-free
      [spec_float] of the core library at precision 53 and [emax] 1024.
    - A Go [string] is a sequence of bytes, modelled as [string].
    - A rendering goroutine is a function from what it observes (prompt
      changes, channel deliveries) to the effects it performs (writes to
      the output, sleeps) and its status. *)

From Stdlib Require Import ZArith List String Ascii Bool Lia DecimalString.
From Stdlib Require Import Floats.SpecFloat.
Import ListNotations.

Local Open Scope string_scope.
Local Open Scope Z_scope.

(** ** Go's [int] *)

Definition int_min : Z := - 2 ^ 63.
Definition int_max : Z := 2 ^ 63 - 1.

(** Two's-complement wrap-around of a mathematical integer to 64 bits. *)
Definition wrap (z : Z) : Z := (z + 2 ^ 63) mod 2 ^ 64 - 2 ^ 63.

Definition int_add (a b : Z) : Z := wrap (a + b).
Definition int_sub (a b : Z) : Z := wrap (a - b).

(** Go's [%] truncates towards zero; a zero divisor panics. *)
Definition int_rem (a b : Z) : option Z :=
  if b =? 0 then None else Some (Z.rem a b).

Definition in_int (z : Z) : Prop := int_min <= z <= int_max.

(** ** Go's [float64] *)

Definition prec : Z := 53.
Definition emax : Z := 1024.

Definition float64 : Type := spec_float.

Definition valid_float64 (x : float64) : bool := valid_binary prec emax x.

(** [float64(n)] for an [int] n: round to nearest, ties to even. *)
Definition float64_of_int (n : Z) : float64 := binary_normalize prec emax n 0 false.

Definition f64_mul (x y : float64) : float64 := SFmul prec emax x y.
Definition f64_eqb (x y : float64) : bool := SFeqb x y.
Definition f64_leb (x y : float64) : bool := SFleb x y.
Definition f64_ltb (x y : float64) : bool := SFltb x y.
Definition f64_geb (x y : float64) : bool := SFleb y x.

(** The literals of the source. *)
Definition f64_0 : float64 := S754_zero false.
Definition f64_1 : float64 := Eval cbv in float64_of_int 1.
Definition f64_100 : float64 := Eval cbv in float64_of_int 100.
Definition f64_neg1 : float64 := Eval cbv in SFopp (float64_of_int 1).
Definition f64_neg2 : float64 := Eval cbv in SFopp (float64_of_int 2).

(** The integer part of a finite float, fraction discarded. *)
Definition f64_trunc (x : float64) : option Z :=
  match x with
  | S754_zero _ => Some 0
  | S754_finite s m e =>
      let a := match e with
               | Zneg k => Z.pos m / 2 ^ Z.pos k
               | _ => Z.pos m * 2 ^ e
               end in
      Some (if s then - a else a)
  | S754_infinity _ | S754_nan => None
  end.

(** [int(x)] for a [float64] x: the fraction is discarded.  When the value
    does not fit an [int] (also NaN and the infinities) Go leaves the result
    to the implementation; amd64 yields the smallest [int]. *)
Definition int_of_float64 (x : float64) : Z :=
  match f64_trunc x with
  | Some z => if (int_min <=? z) && (z <=? int_max) then z else int_min
  | None => int_min
  end.

(** ** Go's [string] *)

(** [len(s)]: the number of bytes. *)
Definition len (s : string) : Z := Z.of_nat (String.length s).

Fixpoint repeat_string (s : string) (n : nat) : string :=
  match n with
  | O => ""
  | S n' => s ++ repeat_string s n'
  end.

(** [strings.Repeat(s, count)] panics when [count] is negative. *)
Definition Repeat (s : string) (count : Z) : option string :=
  if count <? 0 then None else Some (repeat_string s (Z.to_nat count)).

Definition ESC : string := String "027"%char "".
Definition CR : string := String "013"%char "".
Definition LF : string := String "010"%char "".

(** The ANSI sequences of the format strings: ESC[?25l and ESC[?25h. *)
Definition hide_cursor : string := ESC ++ "[?25l".
Definition show_cursor : string := ESC ++ "[?25h".

(** ** Constants and tables *)

Definition success : Z := 0.
Definition fail : Z := 1.

Definition spinner : Z := 0.
Definition bar : Z := 1.
Definition loading : Z := 2.

Definition Spinner : Type := list string.

(** Wheel created with pipes and slashes. *)
Definition Wheel : Spinner := ["|"; "/"; "-"; "\"].

(** Bouncing dots. *)
Definition Bouncing : Spinner :=
  ["⠁"; "⠂"; "⠄"; "⠂"].

(** Clock that spins two hours per step. *)
Definition Clock : Spinner :=
  ["🕐 "; "🕑 "; "🕒 "; "🕓 "; "🕔 "; "🕕 "; "🕖 "; "🕗 "; "🕘 "; "🕙 "; "🕚 "].

(** Dots that spin around a rectangle. *)
Definition Dots : Spinner :=
  ["⠋"; "⠙"; "⠹"; "⠸"; "⠼"; "⠴"; "⠦"; "⠧"; "⠇"; "⠏"].

(** ** Channels *)

(** A channel: its buffer depth, the values queued in it, oldest first, and
    whether it has been closed. *)
Record chan (A : Type) : Type := mkchan {
  cap : nat;
  buf : list A;
  closed : bool
}.
Arguments mkchan {A}.
Arguments cap {A}.
Arguments buf {A}.
Arguments closed {A}.

Definition make_chan {A : Type} (depth : nat) : chan A := mkchan depth [] false.

Inductive send_result (A : Type) : Type :=
| Sent (ch : chan A)     (* the value was accepted by the channel *)
| SendBlocks             (* the sender has to wait *)
| SendPanics.            (* send on a closed channel *)
Arguments Sent {A}.
Arguments SendBlocks {A}.
Arguments SendPanics {A}.

(** [ch <- v] as seen by the sender alone: a nil channel blocks for ever, a
    closed one panics, a full buffer (every unbuffered channel is full)
    makes the sender wait for a receiver. *)
Definition send {A : Type} (ch : option (chan A)) (v : A) : send_result A :=
  match ch with
  | None => SendBlocks
  | Some q =>
      if closed q then SendPanics
      else if (List.length (buf q) <? cap q)%nat
           then Sent (mkchan (cap q) (buf q ++ [v])%list false)
           else SendBlocks
  end.

(** The receiving end takes the oldest queued value. *)
Definition recv {A : Type} (q : chan A) : option (A * chan A) :=
  match buf q with
  | [] => None
  | v :: rest => Some (v, mkchan (cap q) rest (closed q))
  end.

(** ** The [Progress] structure *)

(** [output] is represented by the effects of the rendering loops and the
    mutex [mtx] by the atomicity of their steps; [wg] is the counter of the
    wait group. *)
Record Progress : Type := mkProgress {
  Prompt : string;
  DisplayLength : Z;
  style : Z;
  cf : option (chan float64);
  c : option (chan Z);
  spinsteps : Spinner;
  delay : Z;
  wg : Z
}.

Definition set_Prompt (p : Progress) (s : string) : Progress :=
  mkProgress s (DisplayLength p) (style p) (cf p) (c p) (spinsteps p) (delay p) (wg p).
Definition set_cf (p : Progress) (q : option (chan float64)) : Progress :=
  mkProgress (Prompt p) (DisplayLength p) (style p) q (c p) (spinsteps p) (delay p) (wg p).
Definition set_c (p : Progress) (q : option (chan Z)) : Progress :=
  mkProgress (Prompt p) (DisplayLength p) (style p) (cf p) q (spinsteps p) (delay p) (wg p).
Definition set_wg (p : Progress) (n : Z) : Progress :=
  mkProgress (Prompt p) (DisplayLength p) (style p) (cf p) (c p) (spinsteps p) (delay p) n.

(** The constructors take the prompt already formatted by [fmt.Sprintf]. *)
Definition NewProgressSpinner (message : string) : Progress :=
  {| style := spinner; Prompt := message; DisplayLength := 30;
     spinsteps := Wheel; cf := None; c := None; delay := 0; wg := 0 |}.

Definition NewProgressBar (message : string) : Progress :=
  {| style := bar; Prompt := message; DisplayLength := 20;
     spinsteps := []; cf := None; c := None; delay := 0; wg := 0 |}.

Definition NewLoadingMessage (message : string) (spin : Spinner) (d : Z) : Progress :=
  {| style := loading; Prompt := message; DisplayLength := 0;
     spinsteps := spin; cf := None; c := None; delay := d; wg := 0 |}.

(** ** The methods, as sequences of runtime operations *)

Inductive goroutine : Type := GoRenderSpinner | GoRenderBar | GoRenderLoading.

(** The operations a method performs on the shared structure, in program
    order.  A method of the source is straight-line code around a switch
    on the style, so it is the list of its operations. *)
Inductive op : Type :=
| WgAdd (n : Z)
| WgDone
| WgWait
| MakeC (depth : nat)
| MakeCf (depth : nat)
| Go (g : goroutine)
| SendC (v : Z)
| SendCf (v : float64)
| CloseC
| CloseCf
| StorePrompt (s : string).

Definition Start (p : Progress) : list op :=
  WgAdd 1 ::
  (if style p =? spinner then [MakeC 0; Go GoRenderSpinner]
   else if style p =? bar then [MakeCf 2; Go GoRenderBar; SendCf f64_0]
   else if style p =? loading then [MakeC 0; Go GoRenderLoading]
   else []).

Definition close_ops (p : Progress) : list op :=
  if style p =? spinner then [CloseC]
  else if style p =? bar then [CloseCf]
  else if style p =? loading then [CloseC]
  else [].

Definition Success (p : Progress) : list op :=
  ((if style p =? spinner then [SendC success]
    else if style p =? bar then [SendCf f64_neg1]
    else if style p =? loading then [SendC success]
    else []) ++ [WgWait] ++ close_ops p)%list.

Definition Fail (p : Progress) : list op :=
  ((if style p =? spinner then [SendC fail]
    else if style p =? bar then [SendCf f64_neg2]
    else if style p =? loading then [SendC success]
    else []) ++ [WgWait] ++ close_ops p)%list.

(** The deferred [wg.Done] and [mtx.Unlock] run when the method returns;
    the critical section is the single operation [StorePrompt]. *)
Definition UpdatePrompt (prompt : string) : list op :=
  [WgAdd 1; StorePrompt prompt; WgDone].

Definition Update (pct : float64) : list op :=
  [WgAdd 1; SendCf (if f64_geb pct f64_1 then f64_1 else pct); WgDone].

(** ** Running the caller's operations *)

(** The controller's side of the program state: the shared structure and
    the goroutines launched so far. *)
Record world : Type := mkworld {
  shared : Progress;
  launched : list goroutine
}.

Definition with_shared (w : world) (p : Progress) : world := mkworld p (launched w).

Inductive step_result : Type :=
| Stepped (w : world)
| Waits
| Crashes.

Definition close_chan {A : Type} (q : option (chan A)) : option (chan A) :=
  match q with
  | None => None
  | Some ch => if closed ch then None else Some (mkchan (cap ch) (buf ch) true)
  end.

(** One operation of the calling goroutine.  [Waits] means the operation
    cannot complete in this state: a send the channel does not accept, or
    [wg.Wait] with a positive counter.  Closing a nil or closed channel and
    a negative wait-group counter are run-time panics. *)
Definition exec_op (w : world) (o : op) : step_result :=
  let p := shared w in
  match o with
  | WgAdd n =>
      if wg p + n <? 0 then Crashes else Stepped (with_shared w (set_wg p (wg p + n)))
  | WgDone =>
      if wg p - 1 <? 0 then Crashes else Stepped (with_shared w (set_wg p (wg p - 1)))
  | WgWait => if wg p =? 0 then Stepped w else Waits
  | MakeC depth => Stepped (with_shared w (set_c p (Some (make_chan depth))))
  | MakeCf depth => Stepped (with_shared w (set_cf p (Some (make_chan depth))))
  | Go g => Stepped (mkworld p (launched w ++ [g])%list)
  | SendC v =>
      match send (c p) v with
      | Sent q => Stepped (with_shared w (set_c p (Some q)))
      | SendBlocks => Waits
      | SendPanics => Crashes
      end
  | SendCf v =>
      match send (cf p) v with
      | Sent q => Stepped (with_shared w (set_cf p (Some q)))
      | SendBlocks => Waits
      | SendPanics => Crashes
      end
  | CloseC =>
      match close_chan (c p) with
      | Some q => Stepped (with_shared w (set_c p (Some q)))
      | None => Crashes
      end
  | CloseCf =>
      match close_chan (cf p) with
      | Some q => Stepped (with_shared w (set_cf p (Some q)))
      | None => Crashes
      end
  | StorePrompt s => Stepped (with_shared w (set_Prompt p s))
  end.

Inductive run_result : Type :=
| Finished (w : world)                    (* every operation completed *)
| Blocked (w : world) (rest : list op)    (* the head of [rest] waits *)
| Crashed.

(** The caller runs alone: no other goroutine takes a step meanwhile. *)
Fixpoint run (w : world) (ops : list op) : run_result :=
  match ops with
  | [] => Finished w
  | o :: rest =>
      match exec_op w o with
      | Stepped w' => run w' rest
      | Waits => Blocked w (o :: rest)
      | Crashes => Crashed
      end
  end.

(** The values a sequence of operations sends on [cf], in order. *)
Fixpoint sent_cf (ops : list op) : list float64 :=
  match ops with
  | [] => []
  | SendCf v :: rest => v :: sent_cf rest
  | _ :: rest => sent_cf rest
  end.

(** The values a sequence of operations sends on [c], in order. *)
Fixpoint sent_c (ops : list op) : list Z :=
  match ops with
  | [] => []
  | SendC v :: rest => v :: sent_c rest
  | _ :: rest => sent_c rest
  end.

(** ** The rendering goroutines *)

(** What a rendering goroutine does to the outside. *)
Inductive effect : Type :=
| Write (bytes : string)      (* one [fmt.Fprintf] to [p.output] *)
| Sleep (ms : Z).             (* [time.Sleep], in milliseconds *)

Inductive status : Type :=
| Running        (* waiting for what happens next *)
| Returned       (* the function returned; the deferred [wg.Done] ran *)
| Panicked.

(** What a rendering goroutine observes, one item per step:
    the caller stored a new prompt; its channel delivered a value; its
    channel had nothing ready; its channel was closed and drained; the
    ticker of the loading delay fired. *)
Inductive event (A : Type) : Type :=
| SetPrompt (s : string)
| Got (v : A)
| Empty
| Closed
| Timer.
Arguments SetPrompt {A}.
Arguments Got {A}.
Arguments Empty {A}.
Arguments Closed {A}.
Arguments Timer {A}.

Definition emit (l : list effect) (r : list effect * status) : list effect * status :=
  ((l ++ fst r)%list, snd r).

(** [steps[i%len(steps)]]: an empty table divides by zero, a negative
    remainder indexes out of range. *)
Definition spinLookup (i : Z) (steps : list string) : option string :=
  match int_rem i (Z.of_nat (List.length steps)) with
  | None => None
  | Some k => if k <? 0 then None else nth_error steps (Z.to_nat k)
  end.

(** The two colours the source passes to [Styled]. *)
Inductive Color : Type := Green | Red.

Section Render.

(** [Styled(colour).ApplyTo(text)], defined elsewhere in package [clt]. *)
Variable ApplyTo : Color -> string -> string.

(** The verb [%2.0f] of package [fmt]. *)
Variable fmt_2_0f : float64 -> string.

(** *** renderSpinner *)

(** The local [dotLen]; the loop does not read it. *)
Definition dotLen (p : Progress) : Z :=
  let promptLen := len (Prompt p) in
  let d := int_sub (DisplayLength p) promptLen in
  if d <? 3 then 3 else d.

Definition spinner_frame (p : Progress) (frame : string) : string :=
  hide_cursor ++ CR ++ Prompt p ++ "[" ++ frame ++ "]".

Definition spinner_done (p : Progress) (mark : string) : string :=
  show_cursor ++ CR ++ Prompt p ++ "[" ++ mark ++ "]" ++ LF.

(** The receive branch of the select: the inner switch has no default. *)
Definition spinner_result (p : Progress) (result : Z) : list effect :=
  if result =? success then [Write (spinner_done p (ApplyTo Green "OK"))]
  else if result =? fail then [Write (spinner_done p (ApplyTo Red "FAIL"))]
  else [].

Fixpoint spinner_loop (p : Progress) (i : Z) (evs : list (event Z))
  : list effect * status :=
  match evs with
  | [] => ([], Running)
  | SetPrompt s :: rest => spinner_loop (set_Prompt p s) i rest
  | Timer :: rest => spinner_loop p i rest
  | Got result :: _ => (spinner_result p result, Returned)
  | Closed :: _ => (spinner_result p 0, Returned)
  | Empty :: rest =>
      match spinLookup i (spinsteps p) with
      | None => ([], Panicked)
      | Some frame =>
          emit [Write (spinner_frame p frame); Sleep 100]
               (spinner_loop p (int_add i 1) rest)
      end
  end.

Definition renderSpinner (p : Progress) (evs : list (event Z))
  : list effect * status :=
  let _ := dotLen p in
  spinner_loop p 0 evs.

(** *** renderLoading *)

Definition loading_frame (p : Progress) (frame : string) : string :=
  hide_cursor ++ CR ++ frame ++ "  " ++ Prompt p.

Definition loading_erase (spaces : string) : string :=
  hide_cursor ++ CR ++ spaces ++ CR ++ LF.

(** The receive branch of the loop: whatever was received is dropped. *)
Definition loading_result (p : Progress) : list effect * status :=
  match nth_error (spinsteps p) 0 with
  | None => ([], Panicked)
  | Some first =>
      match Repeat " " (int_add (int_add (len first) (len (Prompt p))) 3) with
      | None => ([], Panicked)
      | Some spaces => ([Write (loading_erase spaces)], Returned)
      end
  end.

Fixpoint loading_loop (p : Progress) (i : Z) (evs : list (event Z))
  : list effect * status :=
  match evs with
  | [] => ([], Running)
  | SetPrompt s :: rest => loading_loop (set_Prompt p s) i rest
  | Timer :: rest => loading_loop p i rest
  | Got _ :: _ => loading_result p
  | Closed :: _ => loading_result p
  | Empty :: rest =>
      match spinLookup i (spinsteps p) with
      | None => ([], Panicked)
      | Some frame =>
          emit [Write (loading_frame p frame); Sleep 250]
               (loading_loop p (int_add i 1) rest)
      end
  end.

(** The select that races the channel against the ticker: it has no
    default branch, so [Empty] leaves it waiting. *)
Fixpoint loading_gate (p : Progress) (evs : list (event Z))
  : list effect * status :=
  match evs with
  | [] => ([], Running)
  | SetPrompt s :: rest => loading_gate (set_Prompt p s) rest
  | Empty :: rest => loading_gate p rest
  | Got _ :: _ => ([], Returned)
  | Closed :: _ => ([], Returned)
  | Timer :: rest => loading_loop p 0 rest
  end.

Definition renderLoading (p : Progress) (evs : list (event Z))
  : list effect * status :=
  if 0 <? delay p then loading_gate p evs else loading_loop p 0 evs.

(** *** renderBar *)

Definition bar_line (p : Progress) (inside mark : string) : string :=
  hide_cursor ++ CR ++ Prompt p ++ ": [" ++ inside ++ "] " ++ mark.

Definition bar_end : string := show_cursor ++ LF.

(** The two terminal cases: a bar of [DisplayLength] copies of [fill]. *)
Definition bar_done (p : Progress) (fill mark : string) : list effect * status :=
  match Repeat fill (DisplayLength p) with
  | None => ([], Panicked)
  | Some full => ([Write (bar_line p full mark); Write bar_end], Returned)
  end.

Definition eqLen_of (p : Progress) (result : float64) : Z :=
  int_of_float64 (f64_mul result (float64_of_int (DisplayLength p))).

Fixpoint renderBar (p : Progress) (evs : list (event float64))
  : list effect * status :=
  match evs with
  | [] => ([], Running)
  | SetPrompt s :: rest => renderBar (set_Prompt p s) rest
  | Empty :: rest => renderBar p rest
  | Timer :: rest => renderBar p rest
  | Closed :: _ => ([], Returned)
  | Got result :: rest =>
      let eqLen := eqLen_of p result in
      let spLen := int_sub (DisplayLength p) eqLen in
      if f64_eqb result f64_neg1 then bar_done p "=" (ApplyTo Green "100%")
      else if f64_eqb result f64_neg2 then bar_done p "X" (ApplyTo Red "FAIL")
      else if f64_geb result f64_0 then
        match Repeat "=" eqLen, Repeat " " spLen with
        | Some eqs, Some sps =>
            emit [Write (bar_line p (eqs ++ sps)
                           (fmt_2_0f (f64_mul f64_100 result) ++ "%"))]
                 (renderBar p rest)
        | _, _ => ([], Panicked)
        end
      else renderBar p rest
  end.

End Render.

(** ** Vocabulary of the statements *)

(** The values a channel delivered to a rendering goroutine, in order. *)
Fixpoint received {A : Type} (evs : list (event A)) : list A :=
  match evs with
  | [] => []
  | Got v :: rest => v :: received rest
  | _ :: rest => received rest
  end.

(** The channel neither delivers nor is closed at this observation. *)
Definition quiet {A : Type} (ev : event A) : bool :=
  match ev with
  | Got _ | Closed => false
  | _ => true
  end.

(** [quiet], and the ticker of the loading delay has not fired either. *)
Definition gated {A : Type} (ev : event A) : bool :=
  match ev with
  | SetPrompt _ | Empty => true
  | _ => false
  end.

(** The structure after the prompt changes among [evs]. *)
Fixpoint prompt_after {A : Type} (p : Progress) (evs : list (event A)) : Progress :=
  match evs with
  | [] => p
  | SetPrompt s :: rest => prompt_after (set_Prompt p s) rest
  | _ :: rest => prompt_after p rest
  end.

(** How many loop iterations took the default branch of the select. *)
Fixpoint idle_count {A : Type} (evs : list (event A)) : Z :=
  match evs with
  | [] => 0
  | Empty :: rest => 1 + idle_count rest
  | _ :: rest => idle_count rest
  end.

(** The bytes that reached the output, and the writes one by one. *)
Fixpoint output_bytes (l : list effect) : string :=
  match l with
  | [] => ""
  | Write s :: rest => s ++ output_bytes rest
  | Sleep _ :: rest => output_bytes rest
  end.

Fixpoint writes (l : list effect) : list string :=
  match l with
  | [] => []
  | Write s :: rest => s :: writes rest
  | Sleep _ :: rest => writes rest
  end.

(** [sub] occurs somewhere in [s]. *)
Fixpoint occurs (sub s : string) : bool :=
  String.prefix sub s ||
  match s with
  | EmptyString => false
  | String _ rest => occurs sub rest
  end.

(** [s] has no ESC byte. *)
Fixpoint plain (s : string) : bool :=
  match s with
  | EmptyString => true
  | String ch rest => negb (Ascii.eqb ch "027"%char) && plain rest
  end.

(** The prompts the caller stores among [evs] have no ESC byte. *)
Definition plain_event {A : Type} (ev : event A) : bool :=
  match ev with
  | SetPrompt s => plain s
  | _ => true
  end.

(** What [Update] puts on the channel for the argument [pct]. *)
Definition capped (pct : float64) : float64 :=
  if f64_geb pct f64_1 then f64_1 else pct.

(** One of the two values [renderBar] takes for a termination signal. *)
Definition sentinel (v : float64) : bool :=
  f64_eqb v f64_neg1 || f64_eqb v f64_neg2.

(** [x] is a zero, or a positive finite float of value at most [K]. *)
Definition below (K : Z) (x : float64) : Prop :=
  match x with
  | S754_zero _ => True
  | S754_finite false m e => e <= 0 /\ Z.pos m <= K * 2 ^ (- e)
  | _ => False
  end.

(** After [k] single shifts of a mantissa [M]: the shifted mantissa, scaled
    back, does not exceed [M], and is strictly below it once a bit was lost. *)
Definition shr_inv (M k : Z) (r : shr_record) : Prop :=
  0 <= shr_m r /\ shr_m r * 2 ^ k <= M /\
  (shr_r r || shr_s r = true -> shr_m r * 2 ^ k < M).

(** ** An instance of the two collaborators

    Used to run the rendering loops on concrete inputs: SGR colour codes
    for [ApplyTo], and a fixed-point formatter with no decimals, rounding
    half to even and padding to two columns, for [%2.0f]. *)

Definition sgr (col : Color) (text : string) : string :=
  ESC ++ match col with Green => "[32m" | Red => "[31m" end ++ text ++ ESC ++ "[0m".

Definition round_half_even (m : positive) (e : Z) : Z :=
  match e with
  | Zneg k =>
      let q := Z.pos m / 2 ^ Z.pos k in
      let r := Z.pos m mod 2 ^ Z.pos k in
      let h := 2 ^ (Z.pos k - 1) in
      if r <? h then q
      else if h <? r then q + 1
      else if Z.even q then q else q + 1
  | _ => Z.pos m * 2 ^ e
  end.

Definition pad2 (s : string) : string :=
  if (String.length s <? 2)%nat then " " ++ s else s.

Definition fixed0 (x : float64) : string :=
  match x with
  | S754_nan => "NaN"
  | S754_infinity s => if s then "-Inf" else "+Inf"
  | S754_zero s => pad2 (if s then "-0" else "0")
  | S754_finite s m e =>
      let digits := NilZero.string_of_uint (N.to_uint (Z.to_N (round_half_even m e))) in
      pad2 (if s then "-" ++ digits else digits)
  end.

(** ** Inputs used in the examples *)

(** -0.5 and 0.25 as float64 values. *)
Definition f64_neg_half : float64 := S754_finite true 4503599627370496 (-53).
Definition f64_quarter : float64 := S754_finite false 4503599627370496 (-54).

(** * Properties *)

(** ** Rounding of [float64] products

    [binary_round_aux] shifts the exact mantissa right, rounds to nearest
    even and renormalises.  For a non-negative exact value that an integer
    [K < 2 ^ 53] bounds, the rounded value stays at most [K]: at a
    non-positive exponent every integer lies on the grid of the floats. *)



Lemma digits2_pos_size (m : positive) : digits2_pos m = Pos.size m.
Proof. induction m; simpl; congruence. Qed.

Lemma digits2_pos_gt (m : positive) : Z.pos m < 2 ^ Z.pos (digits2_pos m).
Proof.
  rewrite digits2_pos_size.
  pose proof (Pos.size_gt m) as H.
  rewrite <- Pos2Z.inj_pow. apply Pos2Z.pos_lt_pos. exact H.
Qed.

Lemma digits2_pos_le (m : positive) : 2 ^ Z.pos (digits2_pos m) <= 2 * Z.pos m.
Proof.
  rewrite digits2_pos_size.
  pose proof (Pos.size_le m) as H.
  rewrite <- Pos2Z.inj_pow. change (2 * Z.pos m) with (Z.pos m~0).
  apply Pos2Z.pos_le_pos. exact H.
Qed.

(** A mantissa below [2 ^ d] has at most [d] binary digits. *)
Lemma Zdigits2_le (m d : Z) : 0 <= m -> 0 <= d -> m < 2 ^ d -> Zdigits2 m <= d.
Proof.
  intros Hm Hd Hlt. destruct m as [|q|q]; simpl; [lia| |lia].
  pose proof (digits2_pos_le q) as Hle.
  destruct (Z_le_gt_dec (Z.pos (digits2_pos q)) d) as [|Hgt]; [assumption|exfalso].
  assert (2 ^ (d + 1) <= 2 ^ Z.pos (digits2_pos q)) by (apply Z.pow_le_mono_r; lia).
  rewrite Z.pow_add_r in H by lia. lia.
Qed.



Lemma shr_1_spec (r : shr_record) :
  0 <= shr_m r ->
  0 <= shr_m (shr_1 r) /\
  shr_m r = 2 * shr_m (shr_1 r) + (if shr_r (shr_1 r) then 1 else 0) /\
  shr_s (shr_1 r) = shr_r r || shr_s r.
Proof.
  destruct r as [m r s]. cbn [shr_m]. intros Hm.
  destruct m as [|[q|q|]|q]; cbn [shr_1 shr_m shr_r shr_s];
    repeat split; try reflexivity; lia.
Qed.

Lemma shr_1_inv (M k : Z) (r : shr_record) :
  0 <= k -> shr_inv M k r -> shr_inv M (k + 1) (shr_1 r).
Proof.
  intros Hk (Hm & Hle & Hlt). unfold shr_inv.
  destruct (shr_1_spec r Hm) as (Hm' & Heq & Hs).
  rewrite Z.pow_add_r by lia. change (2 ^ 1) with 2.
  assert (0 < 2 ^ k) by (apply Z.pow_pos_nonneg; lia).
  rewrite Hs. split; [assumption|].
  destruct (shr_r (shr_1 r)); cbn [orb].
  - split; [nia|intros _; nia].
  - split; [nia|]. intros Hrs. specialize (Hlt Hrs). nia.
Qed.

Lemma iter_shr_1_inv (M : Z) (n : positive) :
  forall (k : Z) (r : shr_record),
    0 <= k -> shr_inv M k r -> shr_inv M (k + Z.pos n) (iter_pos shr_1 n r).
Proof.
  induction n as [n IH|n IH|]; intros k r Hk Hr; simpl.
  - replace (k + Z.pos n~1) with (k + 1 + Z.pos n + Z.pos n) by lia.
    apply IH; [lia|]. apply IH; [lia|]. apply shr_1_inv; assumption.
  - replace (k + Z.pos n~0) with (k + Z.pos n + Z.pos n) by lia.
    apply IH; [lia|]. apply IH; assumption.
  - apply shr_1_inv; assumption.
Qed.



Lemma fexp_le_0 (x : Z) : x <= prec -> fexp prec emax x <= 0.
Proof. unfold fexp, emin, prec, emax. lia. Qed.

Lemma shr_fexp_exact (K m e : Z) :
  0 <= K < 2 ^ prec -> 0 <= m -> e <= 0 -> m <= K * 2 ^ (- e) ->
  exists (r : shr_record) (n : Z),
    shr_fexp prec emax m e loc_Exact = (r, e + n) /\
    0 <= n /\ e + n <= 0 /\ shr_inv m n r.
Proof.
  intros HK Hm He Hle.
  assert (Hpow : 0 < 2 ^ (- e)) by (apply Z.pow_pos_nonneg; lia).
  assert (Hd : fexp prec emax (Zdigits2 m + e) <= 0).
  { apply fexp_le_0.
    assert (Zdigits2 m <= prec - e); [|lia].
    apply Zdigits2_le; [assumption|unfold prec; lia|].
    replace (prec - e) with (prec + - e) by lia.
    rewrite Z.pow_add_r by (unfold prec; lia). nia. }
  assert (H0 : shr_inv m 0 (Build_shr_record m false false)).
  { unfold shr_inv. cbn [shr_m shr_r shr_s orb]. rewrite Z.pow_0_r.
    split; [lia|]. split; [lia|discriminate]. }
  unfold shr_fexp, shr. cbn [shr_record_of_loc].
  destruct (fexp prec emax (Zdigits2 m + e) - e) as [|n|n] eqn:Hn.
  - exists (Build_shr_record m false false), 0.
    rewrite Z.add_0_r. split; [reflexivity|]. split; [lia|]. split; [lia|assumption].
  - exists (iter_pos shr_1 n (Build_shr_record m false false)), (Z.pos n).
    split; [reflexivity|]. split; [lia|]. split; [lia|].
    apply (iter_shr_1_inv m n 0); [lia|assumption].
  - exists (Build_shr_record m false false), 0.
    rewrite Z.add_0_r. split; [reflexivity|]. split; [lia|]. split; [lia|assumption].
Qed.

Lemma round_nearest_even_bound (r : shr_record) :
  shr_m r <= round_nearest_even (shr_m r) (loc_of_shr_record r) <= shr_m r + 1 /\
  (shr_r r || shr_s r = false ->
   round_nearest_even (shr_m r) (loc_of_shr_record r) = shr_m r).
Proof.
  destruct r as [m [|] [|]]; cbn; try destruct (Z.even m); split; try lia;
    intros; try discriminate; reflexivity.
Qed.

(** Rounding a non-negative product to nearest-even never exceeds an
    integer bound [K < 2 ^ prec] that the exact value respects. *)
Lemma binary_round_aux_le (K : Z) (M : positive) (E : Z) :
  0 <= K < 2 ^ prec -> E <= 0 -> Z.pos M <= K * 2 ^ (- E) ->
  match binary_round_aux prec emax false (Z.pos M) E loc_Exact with
  | S754_zero false => True
  | S754_finite false m e => e <= 0 /\ Z.pos m <= K * 2 ^ (- e)
  | _ => False
  end.
Proof.
  intros HK HE HM. unfold binary_round_aux.
  destruct (shr_fexp_exact K (Z.pos M) E HK ltac:(lia) HE HM)
    as (r1 & n1 & -> & Hn1 & He1 & (Hr1 & Hle1 & Hlt1)).
  destruct (round_nearest_even_bound r1) as ((Hlo & Hhi) & Hex).
  set (m2 := round_nearest_even (shr_m r1) (loc_of_shr_record r1)) in *.
  assert (Hp1 : 0 < 2 ^ n1) by (apply Z.pow_pos_nonneg; lia).
  assert (Hsplit : 2 ^ (- E) = 2 ^ (- (E + n1)) * 2 ^ n1).
  { rewrite <- Z.pow_add_r by lia. f_equal. lia. }
  assert (Hm2 : m2 <= K * 2 ^ (- (E + n1))).
  { destruct (shr_r r1 || shr_s r1) eqn:Hrs.
    - specialize (Hlt1 eq_refl). nia.
    - rewrite (Hex eq_refl). nia. }
  destruct (shr_fexp_exact K m2 (E + n1) HK ltac:(lia) He1 Hm2)
    as (r2 & n2 & -> & Hn2 & He2 & (Hr2 & Hle2 & _)).
  assert (Hp2 : 0 < 2 ^ n2) by (apply Z.pow_pos_nonneg; lia).
  assert (Hsplit2 : 2 ^ (- (E + n1)) = 2 ^ (- (E + n1 + n2)) * 2 ^ n2).
  { rewrite <- Z.pow_add_r by lia. f_equal. lia. }
  destruct (shr_m r2) as [|m3|m3] eqn:Hm3; [exact I| |lia].
  replace (E + n1 + n2 <=? emax - prec) with true
    by (symmetry; apply Z.leb_le; unfold emax, prec; lia).
  split; [lia|]. nia.
Qed.



Lemma iter_xO_pow (m d : positive) : Z.pos (Pos.iter xO m d) = Z.pos m * 2 ^ Z.pos d.
Proof.
  induction d as [|d IH] using Pos.peano_ind.
  - cbn. lia.
  - rewrite Pos.iter_succ, Pos2Z.inj_succ, Z.pow_succ_r by lia.
    rewrite Pos2Z.inj_xO, IH. lia.
Qed.

Lemma float64_of_int_below (n : Z) : 0 <= n < 2 ^ prec -> below n (float64_of_int n).
Proof.
  intros Hn. unfold float64_of_int, binary_normalize.
  destruct n as [|q|q]; [exact I| |lia].
  unfold binary_round, shl_align.
  assert (Hd : fexp prec emax (Z.pos (digits2_pos q) + 0) <= 0).
  { apply fexp_le_0. rewrite Z.add_0_r.
    apply (Zdigits2_le (Z.pos q)); unfold prec in *; lia. }
  destruct (fexp prec emax (Z.pos (digits2_pos q) + 0) - 0) as [|d|d] eqn:Hs.
  - pose proof (binary_round_aux_le (Z.pos q) q 0 Hn ltac:(lia) ltac:(cbn; lia)) as H.
    destruct (binary_round_aux prec emax false (Z.pos q) 0 loc_Exact) as [[|]|[|]| |[|] m e];
      cbn in *; tauto.
  - lia.
  - assert (HM : Z.pos (Pos.iter xO q d) <=
                 Z.pos q * 2 ^ (- fexp prec emax (Z.pos (digits2_pos q) + 0))).
    { rewrite iter_xO_pow. replace (- fexp prec emax (Z.pos (digits2_pos q) + 0)) with (Z.pos d) by lia.
      lia. }
    pose proof (binary_round_aux_le (Z.pos q) _ _ Hn Hd HM) as H.
    destruct (binary_round_aux prec emax false (Z.pos (Pos.iter xO q d)) _ loc_Exact)
      as [[|]|[|]| |[|] m e]; cbn in *; tauto.
Qed.

Lemma f64_mul_below (K : Z) (x y : float64) :
  0 <= K < 2 ^ prec -> below 1 x -> below K y -> below K (f64_mul x y).
Proof.
  intros HK Hx Hy.
  destruct x as [sx| | |[|] mx ex]; unfold below in Hx; try contradiction;
    destruct y as [sy| | |[|] my ey]; unfold below in Hy; try contradiction;
    try exact I.
  destruct Hx as (Hex & Hmx), Hy as (Hey & Hmy).
  unfold f64_mul, SFmul. cbn [xorb].
  assert (HM : Z.pos (mx * my) <= K * 2 ^ (- (ex + ey))).
  { replace (- (ex + ey)) with (- ex + - ey) by lia.
    rewrite Z.pow_add_r by lia. rewrite Pos2Z.inj_mul.
    assert (0 < 2 ^ (- ex)) by (apply Z.pow_pos_nonneg; lia).
    assert (0 < 2 ^ (- ey)) by (apply Z.pow_pos_nonneg; lia).
    replace (K * (2 ^ (- ex) * 2 ^ (- ey))) with ((1 * 2 ^ (- ex)) * (K * 2 ^ (- ey))) by ring.
    apply Z.mul_le_mono_nonneg; lia. }
  pose proof (binary_round_aux_le K (mx * my) (ex + ey) HK ltac:(lia) HM) as H.
  destruct (binary_round_aux prec emax false (Z.pos (mx * my)) (ex + ey) loc_Exact)
    as [[|]|[|]| |[|] m e]; cbn in *; tauto.
Qed.

Lemma int_of_float64_below (K : Z) (x : float64) :
  0 <= K < 2 ^ prec -> below K x -> 0 <= int_of_float64 x <= K.
Proof.
  intros HK Hx. unfold int_of_float64.
  assert (Hmin : int_min = -9223372036854775808) by reflexivity.
  assert (Hmax : int_max = 9223372036854775807) by reflexivity.
  assert (Hp : 2 ^ prec = 9007199254740992) by reflexivity.
  destruct x as [s| | |[|] m e]; unfold below in Hx; try contradiction.
  - cbn. lia.
  - destruct Hx as (He & Hm). cbn [f64_trunc].
    assert (Hv : 0 <= match e with
                      | Z.neg k => Z.pos m / 2 ^ Z.pos k
                      | _ => Z.pos m * 2 ^ e
                      end <= K).
    { destruct e as [|k|k]; [cbn in *; lia|lia|].
      change (- Z.neg k) with (Z.pos k) in Hm.
      assert (0 < 2 ^ Z.pos k) by (apply Z.pow_pos_nonneg; lia).
      split; [apply Z.div_pos; lia|].
      apply Z.div_le_upper_bound; lia. }
    destruct (Z.leb_spec int_min (match e with
                      | Z.neg k => Z.pos m / 2 ^ Z.pos k
                      | _ => Z.pos m * 2 ^ e
                      end)); [|lia].
    destruct (Z.leb_spec (match e with
                      | Z.neg k => Z.pos m / 2 ^ Z.pos k
                      | _ => Z.pos m * 2 ^ e
                      end) int_max); cbn [andb]; lia.
Qed.



Lemma valid_mantissa_lt (m : positive) (e : Z) :
  bounded prec emax m e = true -> Z.pos m < 2 ^ prec.
Proof.
  unfold bounded, canonical_mantissa. intros H.
  apply andb_true_iff in H. destruct H as (H & _). apply Z.eqb_eq in H.
  pose proof (digits2_pos_gt m) as Hgt.
  assert (Z.pos (digits2_pos m) <= prec) by (unfold fexp, emin, prec, emax in *; lia).
  assert (2 ^ Z.pos (digits2_pos m) <= 2 ^ prec) by (apply Z.pow_le_mono_r; lia).
  lia.
Qed.

Lemma f64_1_below : below 1 f64_1.
Proof. unfold below, f64_1. split; [lia|]. vm_compute. discriminate. Qed.

Lemma clamp_below (f : float64) :
  valid_float64 f = true -> f64_geb f f64_0 = true ->
  below 1 (if f64_geb f f64_1 then f64_1 else f).
Proof.
  intros Hv H0.
  destruct f as [s|[|]| |[|] m e]; try discriminate H0.
  - exact I.
  - exact f64_1_below.
  - unfold valid_float64, valid_binary in Hv. apply valid_mantissa_lt in Hv.
    destruct (f64_geb (S754_finite false m e) f64_1) eqn:Hge; [exact f64_1_below|].
    unfold f64_geb, SFleb, SFcompare, f64_1 in Hge.
    assert (Hp : 2 ^ 52 = 4503599627370496) by reflexivity.
    destruct (Z.compare_spec (-52) e) as [He|He|He]; try discriminate Hge.
    + subst e.
      destruct (Pos.compare_cont Eq 4503599627370496 m) eqn:Hc; try discriminate Hge.
      change (Pos.compare 4503599627370496 m = Gt) in Hc.
      apply Pos.compare_gt_iff, Pos2Z.pos_lt_pos in Hc. unfold below.
      change (- -52) with 52. rewrite Hp. clear Hv Hp Hge. split; [discriminate|]. clear H0. lia.
    + clear Hp Hge H0. unfold below. split; [lia|].
      assert (2 ^ prec <= 2 ^ (- e)) by (apply Z.pow_le_mono_r; unfold prec; lia).
      generalize dependent (2 ^ prec). intros; lia.
Qed.

(** ** Integers and strings *)

Lemma wrap_id (z : Z) : in_int z -> wrap z = z.
Proof.
  unfold in_int, wrap. intros H.
  assert (Hmin : int_min = -9223372036854775808) by reflexivity.
  assert (Hmax : int_max = 9223372036854775807) by reflexivity.
  change (2 ^ 63) with 9223372036854775808.
  change (2 ^ 64) with 18446744073709551616.
  rewrite Z.mod_small; lia.
Qed.

Lemma int_sub_exact (a b : Z) : in_int (a - b) -> int_sub a b = a - b.
Proof. apply wrap_id. Qed.

Lemma int_add_exact (a b : Z) : in_int (a + b) -> int_add a b = a + b.
Proof. apply wrap_id. Qed.

Lemma Repeat_nonneg (s : string) (n : Z) :
  0 <= n -> Repeat s n = Some (repeat_string s (Z.to_nat n)).
Proof. intros H. unfold Repeat. destruct (Z.ltb_spec n 0); [lia|reflexivity]. Qed.

Lemma Repeat_negative (s : string) (n : Z) : n < 0 -> Repeat s n = None.
Proof. intros H. unfold Repeat. destruct (Z.ltb_spec n 0); [reflexivity|lia]. Qed.

Lemma length_append (a b : string) :
  String.length (a ++ b) = (String.length a + String.length b)%nat.
Proof. induction a as [|ch a IH]; cbn; [reflexivity|]. now rewrite IH. Qed.

Lemma length_repeat_string (s : string) (n : nat) :
  String.length (repeat_string s n) = (n * String.length s)%nat.
Proof.
  induction n as [|n IH]; cbn [repeat_string]; [reflexivity|].
  rewrite length_append, IH. reflexivity.
Qed.

Lemma len_repeat_string (s : string) (n : Z) :
  0 <= n -> len (repeat_string s (Z.to_nat n)) = n * len s.
Proof.
  intros H. unfold len. rewrite length_repeat_string. lia.
Qed.

Lemma emit_nil (r : list effect * status) : emit [] r = r.
Proof. destruct r; reflexivity. Qed.

Lemma emit_emit (l l' : list effect) (r : list effect * status) :
  emit l (emit l' r) = emit (l ++ l') r.
Proof. unfold emit; cbn. now rewrite app_assoc. Qed.

(** ** What the methods send *)

Lemma sent_cf_app (a b : list op) : sent_cf (a ++ b) = (sent_cf a ++ sent_cf b)%list.
Proof.
  induction a as [|o a IH]; [reflexivity|].
  destruct o; cbn; rewrite ?IH; reflexivity.
Qed.

Lemma sent_c_app (a b : list op) : sent_c (a ++ b) = (sent_c a ++ sent_c b)%list.
Proof.
  induction a as [|o a IH]; [reflexivity|].
  destruct o; cbn; rewrite ?IH; reflexivity.
Qed.

Lemma sent_cf_Update (pct : float64) : sent_cf (Update pct) = [capped pct].
Proof. reflexivity. Qed.

Lemma sent_cf_Updates (fs : list float64) :
  sent_cf (flat_map Update fs) = map capped fs.
Proof.
  induction fs as [|f fs IH]; [reflexivity|].
  cbn [flat_map map]. rewrite sent_cf_app, IH. reflexivity.
Qed.

Lemma sent_cf_bar (p : Progress) :
  style p = bar ->
  sent_cf (Start p) = [f64_0] /\
  sent_cf (Success p) = [f64_neg1] /\
  sent_cf (Fail p) = [f64_neg2].
Proof. unfold Start, Success, Fail, close_ops. intros ->. repeat split. Qed.

(** ** Float comparisons against the literals *)

Lemma negative_not_capped (f : float64) : f64_ltb f f64_0 = true -> capped f = f.
Proof.
  unfold capped. destruct f as [s|[|]| |[|] m e]; try discriminate; reflexivity.
Qed.

Lemma negative_not_geb_0 (f : float64) :
  f64_ltb f f64_0 = true -> f64_geb f f64_0 = false.
Proof. destruct f as [s|[|]| |[|] m e]; try discriminate; reflexivity. Qed.

Lemma capped_below (f : float64) :
  valid_float64 f = true -> f64_geb (capped f) f64_0 = true -> below 1 (capped f).
Proof.
  intros Hv. pose proof (clamp_below f Hv) as H. unfold capped in *.
  destruct (f64_geb f f64_1); [intros _; exact f64_1_below|exact H].
Qed.

Lemma capped_sentinel (f : float64) : sentinel f = false -> sentinel (capped f) = false.
Proof. unfold capped. destruct (f64_geb f f64_1); [reflexivity|trivial]. Qed.

Lemma nonneg_not_sentinel (v : float64) : f64_geb v f64_0 = true -> sentinel v = false.
Proof. destruct v as [s|[|]| |[|] m e]; try discriminate; reflexivity. Qed.

(** ** The fill of the bar *)

Lemma eqLen_of_below (p : Progress) (v : float64) :
  0 <= DisplayLength p < 2 ^ 53 -> below 1 v ->
  0 <= eqLen_of p v <= DisplayLength p.
Proof.
  intros HD Hv. unfold eqLen_of.
  apply int_of_float64_below; [exact HD|].
  apply f64_mul_below; [exact HD|exact Hv|].
  apply float64_of_int_below. exact HD.
Qed.

Section BarProperties.

Variable ApplyTo : Color -> string -> string.
Variable fmt_2_0f : float64 -> string.

(** One iteration on a value in [[0,1]]: the progress line. *)
Lemma renderBar_progress (p : Progress) (v : float64) (rest : list (event float64)) :
  0 <= DisplayLength p < 2 ^ 53 -> f64_geb v f64_0 = true -> below 1 v ->
  renderBar ApplyTo fmt_2_0f p (Got v :: rest) =
  emit [Write (bar_line p
                 (repeat_string "=" (Z.to_nat (eqLen_of p v)) ++
                  repeat_string " " (Z.to_nat (DisplayLength p - eqLen_of p v)))
                 (fmt_2_0f (f64_mul f64_100 v) ++ "%"))]
       (renderBar ApplyTo fmt_2_0f p rest).
Proof.
  intros HD Hge Hv.
  pose proof (eqLen_of_below p v HD Hv) as Hn.
  pose proof (nonneg_not_sentinel v Hge) as Hs.
  apply orb_false_iff in Hs. destruct Hs as (Hs1 & Hs2).
  cbn [renderBar]. rewrite Hs1, Hs2, Hge.
  change (2 ^ 53) with 9007199254740992 in HD.
  rewrite int_sub_exact
    by (unfold in_int; change int_min with (-9223372036854775808);
        change int_max with 9223372036854775807; lia).
  rewrite !Repeat_nonneg by lia. reflexivity.
Qed.

(** One iteration on a value that is neither a sentinel nor [>= 0]. *)
Lemma renderBar_ignored (p : Progress) (v : float64) (rest : list (event float64)) :
  sentinel v = false -> f64_geb v f64_0 = false ->
  renderBar ApplyTo fmt_2_0f p (Got v :: rest) = renderBar ApplyTo fmt_2_0f p rest.
Proof.
  intros Hs Hge. apply orb_false_iff in Hs. destruct Hs as (Hs1 & Hs2).
  cbn [renderBar]. rewrite Hs1, Hs2, Hge. reflexivity.
Qed.

Lemma renderBar_success (p : Progress) (rest : list (event float64)) :
  0 <= DisplayLength p ->
  renderBar ApplyTo fmt_2_0f p (Got f64_neg1 :: rest) =
  ([Write (bar_line p (repeat_string "=" (Z.to_nat (DisplayLength p)))
                    (ApplyTo Green "100%"));
    Write bar_end], Returned).
Proof.
  intros HD. cbn [renderBar].
  change (f64_eqb f64_neg1 f64_neg1) with true. cbv iota.
  unfold bar_done. rewrite Repeat_nonneg by assumption. reflexivity.
Qed.

Lemma renderBar_fail (p : Progress) (rest : list (event float64)) :
  0 <= DisplayLength p ->
  renderBar ApplyTo fmt_2_0f p (Got f64_neg2 :: rest) =
  ([Write (bar_line p (repeat_string "X" (Z.to_nat (DisplayLength p)))
                    (ApplyTo Red "FAIL"));
    Write bar_end], Returned).
Proof.
  intros HD. cbn [renderBar].
  change (f64_eqb f64_neg2 f64_neg1) with false.
  change (f64_eqb f64_neg2 f64_neg2) with true. cbv iota.
  unfold bar_done. rewrite Repeat_nonneg by assumption. reflexivity.
Qed.

(** A value [Update] may send, sentinels apart, costs one iteration that
    draws at most one line and leaves the loop running. *)
Lemma renderBar_harmless (p : Progress) (v : float64) :
  0 <= DisplayLength p < 2 ^ 53 -> sentinel v = false ->
  (f64_geb v f64_0 = true -> below 1 v) ->
  exists l : list effect,
    forall rest, renderBar ApplyTo fmt_2_0f p (Got v :: rest) = emit l (renderBar ApplyTo fmt_2_0f p rest).
Proof.
  intros HD Hs Hb. destruct (f64_geb v f64_0) eqn:Hge.
  - eexists. intros rest. apply renderBar_progress; auto.
  - exists []. intros rest. rewrite emit_nil. apply renderBar_ignored; assumption.
Qed.

(** The loop up to the first sentinel: whatever the interleaving of prompt
    changes and deliveries, the loop is still running when the value
    after the harmless ones arrives. *)
Lemma renderBar_until (vs : list float64) (fin : float64) :
  forall (evs : list (event float64)) (p : Progress),
    0 <= DisplayLength p < 2 ^ 53 ->
    Forall (fun v => sentinel v = false /\ (f64_geb v f64_0 = true -> below 1 v)) vs ->
    ~ In Closed evs ->
    received evs = (vs ++ [fin])%list ->
    exists (pre : list effect) (q : Progress) (rest : list (event float64)),
      renderBar ApplyTo fmt_2_0f p evs = emit pre (renderBar ApplyTo fmt_2_0f q (Got fin :: rest)) /\
      DisplayLength q = DisplayLength p /\
      (Prompt q = Prompt p \/ In (SetPrompt (Prompt q)) evs).
Proof.
  intros evs. revert vs.
  induction evs as [|ev evs IH]; intros vs p HD Hvs Hcl Hrx.
  - destruct vs; discriminate Hrx.
  - assert (Hcl' : ~ In Closed evs) by (intros H; apply Hcl; right; exact H).
    destruct ev as [s|v| | |].
    + destruct (IH vs (set_Prompt p s) HD Hvs Hcl' Hrx) as (pre & q & rest & Hr & Hq & Hp).
      exists pre, q, rest. split; [exact Hr|]. split; [exact Hq|].
      right. destruct Hp as [Hp|Hp]; [left; rewrite Hp; reflexivity|right; exact Hp].
    + destruct vs as [|v' vs].
      * cbn in Hrx. injection Hrx as -> _.
        exists [], p, evs. rewrite emit_nil. auto.
      * cbn in Hrx. injection Hrx as -> Hrx.
        inversion Hvs as [|? ? (Hs & Hb) Hvs']; subst.
        destruct (renderBar_harmless p v' HD Hs Hb) as (l & Hl).
        destruct (IH vs p HD Hvs' Hcl' Hrx) as (pre & q & rest & Hr & Hq & Hp).
        exists (l ++ pre)%list, q, rest. rewrite Hl, Hr, emit_emit.
        split; [reflexivity|]. split; [exact Hq|].
        destruct Hp as [Hp|Hp]; [left; exact Hp|right; right; exact Hp].
    + destruct (IH vs p HD Hvs Hcl' Hrx) as (pre & q & rest & Hr & Hq & Hp).
      exists pre, q, rest. split; [exact Hr|]. split; [exact Hq|].
      destruct Hp as [Hp|Hp]; [left; exact Hp|right; right; exact Hp].
    + exfalso. apply Hcl. left. reflexivity.
    + destruct (IH vs p HD Hvs Hcl' Hrx) as (pre & q & rest & Hr & Hq & Hp).
      exists pre, q, rest. split; [exact Hr|]. split; [exact Hq|].
      destruct Hp as [Hp|Hp]; [left; exact Hp|right; right; exact Hp].
Qed.

Lemma Updates_harmless (fs : list float64) :
  Forall (fun f => valid_float64 f = true) fs ->
  Forall (fun f => sentinel f = false) fs ->
  Forall (fun v => sentinel v = false /\ (f64_geb v f64_0 = true -> below 1 v))
         (f64_0 :: map capped fs).
Proof.
  intros Hv Hs. constructor.
  - split; [reflexivity|intros _; exact I].
  - induction fs as [|f fs IH]; [constructor|].
    inversion Hv; inversion Hs; subst. cbn [map]. constructor.
    + split; [apply capped_sentinel; assumption|apply capped_below; assumption].
    + apply IH; assumption.
Qed.

End BarProperties.

(** ** Frame lookup *)

Lemma spinLookup_nonneg (i : Z) (steps : list string) :
  steps <> [] -> 0 <= i ->
  spinLookup i steps = nth_error steps (Z.to_nat (i mod Z.of_nat (List.length steps))).
Proof.
  intros Hne Hi. unfold spinLookup, int_rem.
  assert (Hn : 0 < Z.of_nat (List.length steps)).
  { destruct steps; [contradiction|cbn [List.length]; lia]. }
  destruct (Z.eqb_spec (Z.of_nat (List.length steps)) 0) as [H0|_]; [lia|].
  rewrite Z.rem_mod_nonneg by lia.
  pose proof (Z.mod_pos_bound i _ Hn) as Hb.
  destruct (Z.ltb_spec (i mod Z.of_nat (List.length steps)) 0); [lia|reflexivity].
Qed.

Lemma spinLookup_some (i : Z) (steps : list string) :
  steps <> [] -> 0 <= i -> exists frame, spinLookup i steps = Some frame.
Proof.
  intros Hne Hi. rewrite spinLookup_nonneg by assumption.
  assert (Hn : 0 < Z.of_nat (List.length steps)).
  { destruct steps; [contradiction|cbn [List.length]; lia]. }
  pose proof (Z.mod_pos_bound i _ Hn) as Hb.
  destruct (nth_error steps (Z.to_nat (i mod Z.of_nat (List.length steps)))) as [fr|] eqn:E.
  - exists fr. reflexivity.
  - apply nth_error_None in E. lia.
Qed.

(** ** Prompt changes keep the rest of the structure *)

Lemma prompt_after_fields {A : Type} (evs : list (event A)) :
  forall p : Progress,
    spinsteps (prompt_after p evs) = spinsteps p /\
    DisplayLength (prompt_after p evs) = DisplayLength p /\
    delay (prompt_after p evs) = delay p /\
    style (prompt_after p evs) = style p.
Proof.
  induction evs as [|ev evs IH]; intros p; [auto|].
  destruct ev; cbn [prompt_after]; try apply IH.
  destruct (IH (set_Prompt p s)) as (H1 & H2 & H3 & H4). auto.
Qed.

Lemma prompt_after_app {A : Type} (a b : list (event A)) (p : Progress) :
  prompt_after p (a ++ b) = prompt_after (prompt_after p a) b.
Proof.
  revert p. induction a as [|ev a IH]; intros p; [reflexivity|].
  destruct ev; cbn [app prompt_after]; apply IH.
Qed.

Lemma idle_count_nonneg {A : Type} (evs : list (event A)) : 0 <= idle_count evs.
Proof. induction evs as [|[]]; cbn [idle_count]; lia. Qed.

Section LoopProperties.

Variable ApplyTo : Color -> string -> string.

(** The spinner loop over observations without a signal: it draws and
    sleeps, and arrives at the next observation with the prompt of the
    last change and the index advanced by the idle iterations. *)
Lemma spinner_loop_quiet (pre : list (event Z)) :
  forall (p : Progress) (i : Z) (rest : list (event Z)),
    spinsteps p <> [] -> 0 <= i -> i + idle_count pre <= int_max ->
    forallb quiet pre = true ->
    exists l : list effect,
      spinner_loop ApplyTo p i (pre ++ rest) =
      emit l (spinner_loop ApplyTo (prompt_after p pre) (i + idle_count pre) rest).
Proof.
  induction pre as [|ev pre IH]; intros p i rest Hne Hi Hmax Hq.
  - exists []. cbn. rewrite emit_nil, Z.add_0_r. reflexivity.
  - cbn [forallb] in Hq. apply andb_true_iff in Hq. destruct Hq as (Hev & Hq).
    pose proof (idle_count_nonneg pre) as Hc.
    destruct ev as [s|v| | |]; try discriminate Hev; cbn [app spinner_loop prompt_after idle_count] in *.
    + apply IH; assumption.
    + destruct (spinLookup_some i (spinsteps p) Hne Hi) as (fr & ->).
      assert (Hi1 : int_add i 1 = i + 1).
      { apply int_add_exact. unfold in_int.
        change int_min with (-9223372036854775808) in *.
        change int_max with 9223372036854775807 in *. lia. }
      rewrite Hi1.
      destruct (IH p (i + 1) rest Hne ltac:(lia) ltac:(lia) Hq) as (l & ->).
      eexists. rewrite emit_emit. f_equal. f_equal. lia.
    + apply IH; assumption.
Qed.

Lemma loading_loop_quiet (pre : list (event Z)) :
  forall (p : Progress) (i : Z) (rest : list (event Z)),
    spinsteps p <> [] -> 0 <= i -> i + idle_count pre <= int_max ->
    forallb quiet pre = true ->
    exists l : list effect,
      loading_loop p i (pre ++ rest) =
      emit l (loading_loop (prompt_after p pre) (i + idle_count pre) rest).
Proof.
  induction pre as [|ev pre IH]; intros p i rest Hne Hi Hmax Hq.
  - exists []. cbn. rewrite emit_nil, Z.add_0_r. reflexivity.
  - cbn [forallb] in Hq. apply andb_true_iff in Hq. destruct Hq as (Hev & Hq).
    pose proof (idle_count_nonneg pre) as Hc.
    destruct ev as [s|v| | |]; try discriminate Hev; cbn [app loading_loop prompt_after idle_count] in *.
    + apply IH; assumption.
    + destruct (spinLookup_some i (spinsteps p) Hne Hi) as (fr & ->).
      assert (Hi1 : int_add i 1 = i + 1).
      { apply int_add_exact. unfold in_int.
        change int_min with (-9223372036854775808) in *.
        change int_max with 9223372036854775807 in *. lia. }
      rewrite Hi1.
      destruct (IH p (i + 1) rest Hne ltac:(lia) ltac:(lia) Hq) as (l & ->).
      eexists. rewrite emit_emit. f_equal. f_equal. lia.
    + apply IH; assumption.
Qed.

(** The gate of the loading delay waits through prompt changes and an
    empty channel. *)
Lemma loading_gate_gated (pre : list (event Z)) :
  forall (p : Progress) (rest : list (event Z)),
    forallb gated pre = true ->
    loading_gate p (pre ++ rest) = loading_gate (prompt_after p pre) rest.
Proof.
  induction pre as [|ev pre IH]; intros p rest Hg; [reflexivity|].
  cbn [forallb] in Hg. apply andb_true_iff in Hg. destruct Hg as (Hev & Hg).
  destruct ev; try discriminate Hev; cbn [app loading_gate prompt_after]; apply IH; assumption.
Qed.

End LoopProperties.

(** ** Bytes of the output *)

Lemma append_assoc_string (a b d : string) : (a ++ b) ++ d = a ++ (b ++ d).
Proof. induction a as [|ch a IH]; cbn; [reflexivity|]. now rewrite IH. Qed.

Lemma plain_append (a b : string) : plain (a ++ b) = plain a && plain b.
Proof.
  induction a as [|ch a IH]; cbn; [reflexivity|].
  rewrite IH. now rewrite andb_assoc.
Qed.

Lemma plain_repeat_string (s : string) (n : nat) :
  plain s = true -> plain (repeat_string s n) = true.
Proof.
  intros Hs. induction n as [|n IH]; [reflexivity|].
  cbn [repeat_string]. rewrite plain_append, Hs, IH. reflexivity.
Qed.

Lemma occurs_plain (a s : string) :
  plain a = true -> occurs show_cursor (a ++ s) = occurs show_cursor s.
Proof.
  induction a as [|ch a IH]; intros Ha; [reflexivity|].
  cbn [plain] in Ha. apply andb_true_iff in Ha. destruct Ha as (Hch & Ha).
  cbn [append occurs]. rewrite (IH Ha).
  replace (String.prefix show_cursor (String ch (a ++ s))) with false; [reflexivity|].
  unfold show_cursor, ESC. cbn [append String.prefix].
  destruct (ascii_dec "027" ch) as [E|_]; [|reflexivity].
  subst ch. discriminate Hch.
Qed.

Lemma occurs_hide (s : string) :
  occurs show_cursor (hide_cursor ++ s) = occurs show_cursor s.
Proof.
  change (hide_cursor ++ s) with (String "027" ("[?25l" ++ s)).
  cbn [occurs]. rewrite occurs_plain by reflexivity.
  replace (String.prefix show_cursor (String "027" ("[?25l" ++ s))) with false;
    reflexivity.
Qed.

Lemma output_bytes_app (l l' : list effect) :
  output_bytes (l ++ l') = output_bytes l ++ output_bytes l'.
Proof.
  induction l as [|[w|n] l IH]; cbn [app output_bytes]; [reflexivity| |exact IH].
  rewrite IH, append_assoc_string. reflexivity.
Qed.

Lemma writes_app (l l' : list effect) : writes (l ++ l') = (writes l ++ writes l')%list.
Proof.
  induction l as [|[w|n] l IH]; cbn [app writes]; [reflexivity| |exact IH].
  now rewrite IH.
Qed.

Lemma spinLookup_In (i : Z) (steps : list string) (frame : string) :
  spinLookup i steps = Some frame -> In frame steps.
Proof.
  unfold spinLookup. destruct (int_rem i _) as [k|]; [|discriminate].
  destruct (k <? 0); [discriminate|]. apply nth_error_In.
Qed.

Lemma forallb_In {A : Type} (f : A -> bool) (l : list A) (x : A) :
  forallb f l = true -> In x l -> f x = true.
Proof. intros H. rewrite forallb_forall in H. apply H. Qed.

(** Every write of the visible loading loop is hide-cursor followed by
    bytes without ESC, so show-cursor never occurs in its output. *)
Lemma loading_loop_hides (evs : list (event Z)) :
  forall (p : Progress) (i : Z),
    plain (Prompt p) = true ->
    forallb plain (spinsteps p) = true ->
    forallb plain_event evs = true ->
    occurs show_cursor (output_bytes (fst (loading_loop p i evs))) = false /\
    (forall w, In w (writes (fst (loading_loop p i evs))) ->
               String.prefix hide_cursor w = true).
Proof.
  assert (Hres : forall p, plain (Prompt p) = true ->
            occurs show_cursor (output_bytes (fst (loading_result p))) = false /\
            (forall w, In w (writes (fst (loading_result p))) ->
                       String.prefix hide_cursor w = true)).
  { intros p Hp. unfold loading_result.
    destruct (nth_error (spinsteps p) 0) as [first|]; [|split; [reflexivity|intros w []]].
    unfold Repeat. destruct (_ <? 0); [split; [reflexivity|intros w []]|].
    cbn [fst output_bytes writes]. unfold loading_erase. split.
    - rewrite append_assoc_string, occurs_hide.
      rewrite <- !append_assoc_string. rewrite occurs_plain; [reflexivity|].
      rewrite !plain_append, plain_repeat_string by reflexivity. reflexivity.
    - intros w [<-|[]]. reflexivity. }
  induction evs as [|ev evs IH]; intros p i Hp Hsteps Hevs.
  - split; [reflexivity|intros w []].
  - cbn [forallb] in Hevs. apply andb_true_iff in Hevs. destruct Hevs as (Hev & Hevs).
    destruct ev as [s|v| | |]; cbn [loading_loop].
    + apply IH; assumption.
    + apply Hres; assumption.
    + destruct (spinLookup i (spinsteps p)) as [frame|] eqn:Hf;
        [|split; [reflexivity|intros w []]].
      assert (Hfr : plain frame = true).
      { apply (forallb_In plain (spinsteps p)); [assumption|].
        apply (spinLookup_In i). assumption. }
      destruct (IH p (int_add i 1) Hp Hsteps Hevs) as (IH1 & IH2).
      unfold emit. cbn [fst app output_bytes writes]. unfold loading_frame. split.
      * rewrite append_assoc_string, occurs_hide.
        rewrite !append_assoc_string.
        rewrite <- !append_assoc_string.
        rewrite occurs_plain; [exact IH1|].
        rewrite !plain_append, Hfr, Hp. reflexivity.
      * intros w [<-|Hw]; [reflexivity|apply IH2; exact Hw].
    + apply Hres; assumption.
    + apply IH; assumption.
Qed.

Lemma loading_gate_hides (evs : list (event Z)) :
  forall p : Progress,
    plain (Prompt p) = true ->
    forallb plain (spinsteps p) = true ->
    forallb plain_event evs = true ->
    occurs show_cursor (output_bytes (fst (loading_gate p evs))) = false /\
    (forall w, In w (writes (fst (loading_gate p evs))) ->
               String.prefix hide_cursor w = true).
Proof.
  induction evs as [|ev evs IH]; intros p Hp Hsteps Hevs.
  - split; [reflexivity|intros w []].
  - cbn [forallb] in Hevs. apply andb_true_iff in Hevs. destruct Hevs as (Hev & Hevs).
    destruct ev as [s|v| | |]; cbn [loading_gate];
      try (split; [reflexivity|intros w []]).
    + apply IH; assumption.
    + apply IH; assumption.
    + apply loading_loop_hides; assumption.
Qed.

Lemma eqLen_of_zero (p : Progress) :
  0 <= DisplayLength p < 2 ^ 53 -> eqLen_of p f64_0 = 0.
Proof.
  intros HD. unfold eqLen_of.
  pose proof (float64_of_int_below (DisplayLength p) HD) as Hy.
  destruct (float64_of_int (DisplayLength p)) as [s| | |[|] m e];
    unfold below in Hy; try contradiction; reflexivity.
Qed.

Section BarClaims.

Variable ApplyTo : Color -> string -> string.
Variable fmt_2_0f : float64 -> string.

(** C1, amended.  For every fraction [f >= 0] passed to [Update] on a bar
    whose width is below [2 ^ 53], the value put on the channel is [f']:
    exactly 1 when [f >= 1] and [f] itself otherwise; and on receiving it
    [renderBar] draws the progress line whose run of '=' has length
    [int(f' * float64(DisplayLength))], the product rounded as a float64
    and then truncated, which lies between 0 and [DisplayLength]. *)
Theorem Update_fill_length (p : Progress) (f : float64) (rest : list (event float64)) :
  valid_float64 f = true ->
  f64_geb f f64_0 = true ->
  0 <= DisplayLength p < 2 ^ 53 ->
  sent_cf (Update f) = [if f64_geb f f64_1 then f64_1 else f] /\
  0 <= eqLen_of p (capped f) <= DisplayLength p /\
  len (repeat_string "=" (Z.to_nat (eqLen_of p (capped f)))) = eqLen_of p (capped f) /\
  renderBar ApplyTo fmt_2_0f p (Got (capped f) :: rest) =
  emit [Write (bar_line p
                 (repeat_string "=" (Z.to_nat (eqLen_of p (capped f))) ++
                  repeat_string " " (Z.to_nat (DisplayLength p - eqLen_of p (capped f))))
                 (fmt_2_0f (f64_mul f64_100 (capped f)) ++ "%"))]
       (renderBar ApplyTo fmt_2_0f p rest).
Proof.
  intros Hv Hge HD.
  assert (Hb : below 1 (capped f)) by (apply clamp_below; assumption).
  assert (Hge' : f64_geb (capped f) f64_0 = true).
  { unfold capped. destruct (f64_geb f f64_1); [reflexivity|assumption]. }
  pose proof (eqLen_of_below p (capped f) HD Hb) as Hn.
  split; [reflexivity|]. split; [exact Hn|]. split.
  - rewrite len_repeat_string by lia. change (len "=") with 1. lia.
  - apply renderBar_progress; assumption.
Qed.

(** C2.  A negative argument of [Update] reaches the channel unchanged.
    When it equals -1.0 the loop draws the full bar with the success mark
    and returns; when it equals -2.0 it draws the bar of 'X' with the
    failure mark and returns; any other negative value is dropped without
    a write and the loop goes on with the next value. *)
Theorem Update_negative_hits_sentinels
  (p : Progress) (f : float64) (rest : list (event float64)) :
  0 <= DisplayLength p ->
  f64_ltb f f64_0 = true ->
  sent_cf (Update f) = [f] /\
  (f64_eqb f f64_neg1 = true ->
   renderBar ApplyTo fmt_2_0f p (Got f :: rest) =
   ([Write (bar_line p (repeat_string "=" (Z.to_nat (DisplayLength p)))
                     (ApplyTo Green "100%"));
     Write bar_end], Returned)) /\
  (f64_eqb f f64_neg2 = true ->
   renderBar ApplyTo fmt_2_0f p (Got f :: rest) =
   ([Write (bar_line p (repeat_string "X" (Z.to_nat (DisplayLength p)))
                     (ApplyTo Red "FAIL"));
     Write bar_end], Returned)) /\
  (f64_eqb f f64_neg1 = false -> f64_eqb f f64_neg2 = false ->
   renderBar ApplyTo fmt_2_0f p (Got f :: rest) = renderBar ApplyTo fmt_2_0f p rest).
Proof.
  intros HD Hneg.
  split; [rewrite sent_cf_Update, negative_not_capped by assumption; reflexivity|].
  split; [|split].
  - intros H1. cbn [renderBar]. rewrite H1. unfold bar_done.
    rewrite Repeat_nonneg by assumption. reflexivity.
  - intros H2. cbn [renderBar]. rewrite H2.
    assert (H1 : f64_eqb f f64_neg1 = false).
    { destruct f as [s|[|]| |[|] m e]; try reflexivity; try discriminate H2.
      unfold f64_eqb, SFeqb, SFcompare, f64_neg1, f64_neg2 in *.
      destruct (Z.compare_spec e (-51)) as [->|?|?]; try discriminate H2.
      reflexivity. }
    rewrite H1. unfold bar_done. rewrite Repeat_nonneg by assumption. reflexivity.
  - intros H1 H2. apply renderBar_ignored.
    + unfold sentinel. rewrite H1, H2. reflexivity.
    + apply negative_not_geb_0. assumption.
Qed.

(** C3, amended.  On a bar of width below [2 ^ 53], after [Start] and any
    sequence of [Update] calls none of which passes a sentinel (-1.0 or
    -2.0), [Success] makes the loop end with the full bar: whatever the
    interleaving of deliveries and prompt changes, the last two writes
    are the line with exactly [DisplayLength] characters '=' and the
    success-styled 100% mark, then show-cursor and a line feed, and the
    function returns. *)
Theorem Success_draws_full_bar
  (p : Progress) (fs : list float64) (evs : list (event float64)) :
  style p = bar ->
  0 <= DisplayLength p < 2 ^ 53 ->
  Forall (fun f => valid_float64 f = true) fs ->
  Forall (fun f => sentinel f = false) fs ->
  received evs = sent_cf (Start p ++ flat_map Update fs ++ Success p) ->
  ~ In Closed evs ->
  exists (pre : list effect) (q : Progress),
    renderBar ApplyTo fmt_2_0f p evs =
    ((pre ++ [Write (bar_line q (repeat_string "=" (Z.to_nat (DisplayLength p)))
                              (ApplyTo Green "100%"));
              Write (show_cursor ++ LF)])%list, Returned) /\
    len (repeat_string "=" (Z.to_nat (DisplayLength p))) = DisplayLength p /\
    (Prompt q = Prompt p \/ In (SetPrompt (Prompt q)) evs).
Proof.
  intros Hst HD Hv Hs Hrx Hcl.
  destruct (sent_cf_bar p Hst) as (H1 & H2 & _).
  rewrite !sent_cf_app, H1, H2, sent_cf_Updates in Hrx.
  change ([f64_0] ++ map capped fs ++ [f64_neg1])%list
    with ((f64_0 :: map capped fs) ++ [f64_neg1])%list in Hrx.
  destruct (renderBar_until ApplyTo fmt_2_0f _ _ evs p HD (Updates_harmless fs Hv Hs) Hcl Hrx)
    as (pre & q & rest & Hr & Hq & Hp).
  exists pre, q. rewrite Hr, renderBar_success by lia. rewrite Hq.
  split; [reflexivity|]. split; [|exact Hp].
  rewrite len_repeat_string by lia. change (len "=") with 1. lia.
Qed.

End BarClaims.

(** C1, counterexample.  [Update(-0.5)] puts -0.5 on the channel, not 0,
    and the loop draws nothing for it: no line of fill length
    [floor(0 * 20) = 0] appears. *)
Lemma Update_negative_not_clamped :
  f64_ltb f64_neg_half f64_0 = true /\
  sent_cf (Update f64_neg_half) = [f64_neg_half] /\
  renderBar sgr fixed0 (NewProgressBar "Uploading") [Got f64_neg_half] = ([], Running).
Proof. repeat split. Qed.

Lemma Update_fill_length_witness :
  sent_cf (Update f64_quarter) = [f64_quarter] /\
  0 <= eqLen_of (NewProgressBar "Uploading") (capped f64_quarter) <= 20 /\
  len (repeat_string "=" (Z.to_nat (eqLen_of (NewProgressBar "Uploading") (capped f64_quarter)))) =
  eqLen_of (NewProgressBar "Uploading") (capped f64_quarter) /\
  renderBar sgr fixed0 (NewProgressBar "Uploading") [Got (capped f64_quarter)] =
  emit [Write (bar_line (NewProgressBar "Uploading")
                 (repeat_string "=" (Z.to_nat (eqLen_of (NewProgressBar "Uploading") (capped f64_quarter))) ++
                  repeat_string " " (Z.to_nat (20 - eqLen_of (NewProgressBar "Uploading") (capped f64_quarter))))
                 (fixed0 (f64_mul f64_100 (capped f64_quarter)) ++ "%"))]
       (renderBar sgr fixed0 (NewProgressBar "Uploading") []).
Proof.
  apply (Update_fill_length sgr fixed0 (NewProgressBar "Uploading") f64_quarter []).
  - reflexivity.
  - reflexivity.
  - split; [discriminate|reflexivity].
Defined.

Lemma in_int_small (z : Z) : 0 <= z <= int_max -> in_int z.
Proof.
  unfold in_int. change int_min with (-9223372036854775808). lia.
Qed.

Lemma len_nonneg (s : string) : 0 <= len s.
Proof. unfold len. lia. Qed.

Section LoopClaims.

Variable ApplyTo : Color -> string -> string.
Variable fmt_2_0f : float64 -> string.

(** C4, amended.  [Fail] ends the display with the failure frame.  On a
    bar of width below [2 ^ 53], after [Start] and any [Update] calls none
    of which passes a sentinel, the last writes are the line of exactly
    [DisplayLength] characters 'X' with the failure-styled FAIL mark, then
    show-cursor and a line feed.  On a spinner with a non-empty frame
    table, after any prompt changes and idle iterations, the last write
    is the line of the current prompt followed by the failure-styled
    FAIL mark in brackets. *)
Theorem Fail_draws_failure_frame
  (p : Progress) (fs : list float64) (evs : list (event float64))
  (p' : Progress) (pre' rest' : list (event Z)) :
  style p = bar ->
  0 <= DisplayLength p < 2 ^ 53 ->
  Forall (fun f => valid_float64 f = true) fs ->
  Forall (fun f => sentinel f = false) fs ->
  received evs = sent_cf (Start p ++ flat_map Update fs ++ Fail p) ->
  ~ In Closed evs ->
  style p' = spinner ->
  spinsteps p' <> [] ->
  forallb quiet pre' = true ->
  idle_count pre' <= int_max ->
  (exists (pre : list effect) (q : Progress),
      renderBar ApplyTo fmt_2_0f p evs =
      ((pre ++ [Write (bar_line q (repeat_string "X" (Z.to_nat (DisplayLength p)))
                                (ApplyTo Red "FAIL"));
                Write (show_cursor ++ LF)])%list, Returned) /\
      len (repeat_string "X" (Z.to_nat (DisplayLength p))) = DisplayLength p /\
      (Prompt q = Prompt p \/ In (SetPrompt (Prompt q)) evs)) /\
  (exists pre : list effect,
      renderSpinner ApplyTo p' (pre' ++ map Got (sent_c (Fail p')) ++ rest') =
      ((pre ++ [Write (show_cursor ++ CR ++ Prompt (prompt_after p' pre') ++
                       "[" ++ ApplyTo Red "FAIL" ++ "]" ++ LF)])%list, Returned)).
Proof.
  intros Hst HD Hv Hs Hrx Hcl Hst' Hne Hq Hmax. split.
  - destruct (sent_cf_bar p Hst) as (H1 & _ & H2).
    rewrite !sent_cf_app, H1, H2, sent_cf_Updates in Hrx.
    change ([f64_0] ++ map capped fs ++ [f64_neg2])%list
      with ((f64_0 :: map capped fs) ++ [f64_neg2])%list in Hrx.
    destruct (renderBar_until ApplyTo fmt_2_0f _ _ evs p HD (Updates_harmless fs Hv Hs) Hcl Hrx)
      as (pre & q & rest & Hr & Hq' & Hp).
    exists pre, q. rewrite Hr, renderBar_fail by lia. rewrite Hq'.
    split; [reflexivity|]. split; [|exact Hp].
    rewrite len_repeat_string by lia. change (len "X") with 1. lia.
  - unfold renderSpinner.
    destruct (spinner_loop_quiet ApplyTo pre' p' 0
                (map Got (sent_c (Fail p')) ++ rest') Hne ltac:(lia) ltac:(lia) Hq)
      as (l & ->).
    exists l. unfold Fail. rewrite Hst'. reflexivity.
Qed.

(** C5.  With a positive delay, a signal that arrives while the loading
    goroutine still waits for the ticker makes it return at once: it has
    written nothing. *)
Theorem loading_signal_before_delay
  (p : Progress) (pre : list (event Z)) (r : Z) (rest : list (event Z)) :
  0 < delay p ->
  forallb gated pre = true ->
  renderLoading p (pre ++ Got r :: rest) = ([], Returned) /\
  output_bytes (fst (renderLoading p (pre ++ Got r :: rest))) = "".
Proof.
  intros Hd Hg.
  assert (H : renderLoading p (pre ++ Got r :: rest) = ([], Returned)).
  { unfold renderLoading. destruct (Z.ltb_spec 0 (delay p)); [|lia].
    rewrite loading_gate_gated by assumption. reflexivity. }
  rewrite H. split; reflexivity.
Qed.

(** C6.  On a loading indicator [Fail] is [Success]: the same operations,
    the same value on the channel.  The loop drops the received value, so
    its last action is the same for both: one write that hides the
    cursor, returns the carriage, overwrites with
    [len(first frame) + len(prompt) + 3] spaces and ends with CR LF. *)
Theorem loading_Fail_is_Success
  (p : Progress) (first : string) (i r : Z) (rest : list (event Z)) :
  style p = loading ->
  nth_error (spinsteps p) 0 = Some first ->
  len first + len (Prompt p) + 3 <= int_max ->
  Fail p = Success p /\
  sent_c (Fail p) = [success] /\
  loading_loop p i (Got r :: rest) =
  ([Write (hide_cursor ++ CR ++
           repeat_string " " (Z.to_nat (len first + len (Prompt p) + 3)) ++
           CR ++ LF)], Returned) /\
  len (repeat_string " " (Z.to_nat (len first + len (Prompt p) + 3))) =
  len first + len (Prompt p) + 3.
Proof.
  intros Hst Hfirst Hmax.
  pose proof (len_nonneg first). pose proof (len_nonneg (Prompt p)).
  split; [unfold Fail, Success; rewrite Hst; reflexivity|].
  split; [unfold Fail, close_ops; rewrite Hst; reflexivity|].
  split.
  - cbn [loading_loop]. unfold loading_result. rewrite Hfirst.
    rewrite (int_add_exact (len first) (len (Prompt p))) by (apply in_int_small; lia).
    rewrite int_add_exact by (apply in_int_small; lia).
    rewrite Repeat_nonneg by lia. reflexivity.
  - rewrite len_repeat_string by lia. change (len " ") with 1. lia.
Qed.

(** C7.  Frame lookup is cyclic: for a non-empty table of [n] frames and
    an index [i >= 0] the lookup yields the frame at [i mod n], so the
    indices [i] and [i + n] yield the same frame. *)
Theorem spinLookup_cyclic (steps : list string) (i : Z) :
  steps <> [] ->
  0 <= i ->
  spinLookup i steps = nth_error steps (Z.to_nat (i mod Z.of_nat (List.length steps))) /\
  (exists frame, spinLookup i steps = Some frame) /\
  spinLookup (i + Z.of_nat (List.length steps)) steps = spinLookup i steps.
Proof.
  intros Hne Hi. split; [apply spinLookup_nonneg; assumption|].
  split; [apply spinLookup_some; assumption|].
  rewrite !spinLookup_nonneg by first [assumption|lia].
  assert (Hn : Z.of_nat (List.length steps) <> 0).
  { destruct steps; [contradiction|cbn [List.length]; lia]. }
  replace (i + Z.of_nat (List.length steps))
    with (i + 1 * Z.of_nat (List.length steps)) by lia.
  rewrite Z.mod_add by assumption. reflexivity.
Qed.

(** C8.  [Start] on a bar runs to its end without waiting for any other
    goroutine: the counter of the wait group is one higher, [cf] is a
    fresh channel of depth 2 that holds the initial 0.0, and exactly one
    goroutine, [renderBar], has been launched.  On receiving the 0.0 the
    loop draws the empty bar.  Once that value is taken, two [Update]
    calls complete with their values queued, and a third one waits in its
    send. *)
Theorem Start_bar_channel
  (p : Progress) (f1 f2 f3 : float64) (rest : list (event float64)) :
  style p = bar ->
  0 <= wg p ->
  0 <= DisplayLength p < 2 ^ 53 ->
  run (mkworld p []) (Start p) =
  Finished (mkworld (set_wg (set_cf p (Some (mkchan 2 [f64_0] false))) (wg p + 1))
                    [GoRenderBar]) /\
  renderBar ApplyTo fmt_2_0f p (Got f64_0 :: rest) =
  emit [Write (bar_line p (repeat_string " " (Z.to_nat (DisplayLength p)))
                 (fmt_2_0f (f64_mul f64_100 f64_0) ++ "%"))]
       (renderBar ApplyTo fmt_2_0f p rest) /\
  recv (mkchan 2 [f64_0] false) = Some (f64_0, make_chan 2) /\
  run (mkworld (set_wg (set_cf p (Some (make_chan 2))) (wg p + 1)) [GoRenderBar])
      (Update f1 ++ Update f2) =
  Finished (mkworld (set_wg (set_cf p (Some (mkchan 2 [capped f1; capped f2] false)))
                            (wg p + 1))
                    [GoRenderBar]) /\
  run (mkworld (set_wg (set_cf p (Some (make_chan 2))) (wg p + 1)) [GoRenderBar])
      (Update f1 ++ Update f2 ++ Update f3) =
  Blocked (mkworld (set_wg (set_cf p (Some (mkchan 2 [capped f1; capped f2] false)))
                           (wg p + 2))
                   [GoRenderBar])
          [SendCf (capped f3); WgDone].
Proof.
  intros Hst Hwg HD.
  assert (E1 : (wg p + 1 <? 0) = false) by (apply Z.ltb_ge; lia).
  assert (E2 : (wg p + 1 + 1 <? 0) = false) by (apply Z.ltb_ge; lia).
  assert (E3 : (wg p + 1 + 1 - 1 <? 0) = false) by (apply Z.ltb_ge; lia).
  assert (E4 : wg p + 1 + 1 - 1 = wg p + 1) by lia.
  assert (E5 : wg p + 1 + 1 = wg p + 2) by lia.
  split; [|split; [|split; [reflexivity|split]]].
  - unfold Start. rewrite Hst. cbn. rewrite E1. reflexivity.
  - rewrite renderBar_progress; [|assumption|reflexivity|exact I].
    rewrite eqLen_of_zero by assumption. rewrite Z.sub_0_r. reflexivity.
  - cbn. rewrite E2. cbn. rewrite E3, E4. cbn. rewrite E2. cbn. rewrite E3, E4.
    reflexivity.
  - cbn. rewrite E2. cbn. rewrite E3, E4. cbn. rewrite E2. cbn. rewrite E3, E4. cbn.
    rewrite E2. cbn. rewrite E5. reflexivity.
Qed.

(** C9.  In the spinner loop an iteration that finds no signal writes the
    prompt followed by the current frame in brackets (after hide-cursor
    and a carriage return), the frame being the one at [i mod n], then
    sleeps 100 ms and goes on with the index [i + 1].  The local [dotLen]
    is [max(3, DisplayLength - len(Prompt))]. *)
Theorem spinner_idle_iteration (p : Progress) (i : Z) (rest : list (event Z)) :
  spinsteps p <> [] ->
  0 <= i < int_max ->
  in_int (DisplayLength p - len (Prompt p)) ->
  (exists frame : string,
      nth_error (spinsteps p)
                (Z.to_nat (i mod Z.of_nat (List.length (spinsteps p)))) = Some frame /\
      spinner_loop ApplyTo p i (Empty :: rest) =
      emit [Write (hide_cursor ++ CR ++ Prompt p ++ "[" ++ frame ++ "]"); Sleep 100]
           (spinner_loop ApplyTo p (i + 1) rest)) /\
  dotLen p = Z.max 3 (DisplayLength p - len (Prompt p)).
Proof.
  intros Hne Hi Hin. split.
  - destruct (spinLookup_some i (spinsteps p) Hne ltac:(lia)) as (frame & Hf).
    exists frame. split; [rewrite <- spinLookup_nonneg by first [assumption|lia]; exact Hf|].
    cbn [spinner_loop]. rewrite Hf.
    rewrite int_add_exact by (apply in_int_small; lia). reflexivity.
  - unfold dotLen. rewrite int_sub_exact by assumption.
    destruct (Z.ltb_spec (DisplayLength p - len (Prompt p)) 3); lia.
Qed.

(** C10.  The loading goroutine never emits show-cursor: when the prompts
    and frames carry no ESC byte, ESC[?25h occurs nowhere in the bytes it
    writes, and every one of its writes, the final erase included, starts
    with hide-cursor ESC[?25l.  The spinner's final write starts with
    show-cursor and ends with the line feed; the bar's final write is
    show-cursor followed by the line feed. *)
Theorem loading_never_shows_cursor
  (p : Progress) (evs : list (event Z))
  (q : Progress) (i r : Z) (rest : list (event Z))
  (q' : Progress) (rest' : list (event float64)) :
  plain (Prompt p) = true ->
  forallb plain (spinsteps p) = true ->
  forallb plain_event evs = true ->
  r = success \/ r = fail ->
  0 <= DisplayLength q' ->
  occurs show_cursor (output_bytes (fst (renderLoading p evs))) = false /\
  (forall w, In w (writes (fst (renderLoading p evs))) ->
             String.prefix hide_cursor w = true) /\
  (exists body : string,
      spinner_loop ApplyTo q i (Got r :: rest) =
      ([Write (show_cursor ++ body ++ LF)], Returned)) /\
  (exists line : string,
      renderBar ApplyTo fmt_2_0f q' (Got f64_neg1 :: rest') =
      ([Write line; Write (show_cursor ++ LF)], Returned)) /\
  (exists line : string,
      renderBar ApplyTo fmt_2_0f q' (Got f64_neg2 :: rest') =
      ([Write line; Write (show_cursor ++ LF)], Returned)).
Proof.
  intros Hp Hsteps Hevs Hr HD.
  assert (Hl : occurs show_cursor (output_bytes (fst (renderLoading p evs))) = false /\
               (forall w, In w (writes (fst (renderLoading p evs))) ->
                          String.prefix hide_cursor w = true)).
  { unfold renderLoading. destruct (0 <? delay p).
    - apply loading_gate_hides; assumption.
    - apply loading_loop_hides; assumption. }
  destruct Hl as (Hl1 & Hl2).
  split; [exact Hl1|]. split; [exact Hl2|]. split; [|split].
  - destruct Hr as [-> | ->]; cbn [spinner_loop]; unfold spinner_result, spinner_done.
    + exists (CR ++ Prompt q ++ "[" ++ ApplyTo Green "OK" ++ "]").
      rewrite !append_assoc_string. reflexivity.
    + exists (CR ++ Prompt q ++ "[" ++ ApplyTo Red "FAIL" ++ "]").
      rewrite !append_assoc_string. reflexivity.
  - eexists. apply renderBar_success. assumption.
  - eexists. apply renderBar_fail. assumption.
Qed.

End LoopClaims.

(** ** The theorems at concrete inputs *)

Lemma Update_negative_hits_sentinels_witness :
  0 <= DisplayLength (NewProgressBar "Uploading") /\
  f64_ltb f64_neg1 f64_0 = true /\
  renderBar sgr fixed0 (NewProgressBar "Uploading") [Got f64_neg1] =
  ([Write (bar_line (NewProgressBar "Uploading") (repeat_string "=" 20) (sgr Green "100%"));
    Write bar_end], Returned).
Proof.
  split; [discriminate|]. split; [reflexivity|].
  apply (Update_negative_hits_sentinels sgr fixed0 (NewProgressBar "Uploading") f64_neg1 []);
    [discriminate|reflexivity|reflexivity].
Defined.

Lemma Success_draws_full_bar_witness :
  exists (pre : list effect) (q : Progress),
    renderBar sgr fixed0 (NewProgressBar "Uploading")
      [Got f64_0; Got f64_quarter; SetPrompt "Done"; Got f64_1; Got f64_neg1] =
    ((pre ++ [Write (bar_line q (repeat_string "=" 20) (sgr Green "100%"));
              Write (show_cursor ++ LF)])%list, Returned) /\
    len (repeat_string "=" 20) = 20 /\
    (Prompt q = "Uploading" \/
     In (SetPrompt (Prompt q))
        [Got f64_0; Got f64_quarter; SetPrompt "Done"; Got f64_1; Got f64_neg1]).
Proof.
  apply (Success_draws_full_bar sgr fixed0 (NewProgressBar "Uploading")
           [f64_quarter; f64_1]).
  - reflexivity.
  - split; [discriminate|reflexivity].
  - repeat constructor.
  - repeat constructor.
  - reflexivity.
  - cbn. intros [H|[H|[H|[H|[H|[]]]]]]; discriminate H.
Defined.

Lemma Fail_draws_failure_frame_witness :
  (exists (pre : list effect) (q : Progress),
      renderBar sgr fixed0 (NewProgressBar "Uploading")
        [Got f64_0; Got f64_quarter; Got f64_neg2] =
      ((pre ++ [Write (bar_line q (repeat_string "X" 20) (sgr Red "FAIL"));
                Write (show_cursor ++ LF)])%list, Returned) /\
      len (repeat_string "X" 20) = 20 /\
      (Prompt q = "Uploading" \/
       In (SetPrompt (Prompt q)) [Got f64_0; Got f64_quarter; Got f64_neg2])) /\
  (exists pre : list effect,
      renderSpinner sgr (NewProgressSpinner "Connecting") [Empty; Empty; Got fail] =
      ((pre ++ [Write (show_cursor ++ CR ++ "Connecting" ++
                       "[" ++ sgr Red "FAIL" ++ "]" ++ LF)])%list, Returned)).
Proof.
  apply (Fail_draws_failure_frame sgr fixed0 (NewProgressBar "Uploading") [f64_quarter]
           [Got f64_0; Got f64_quarter; Got f64_neg2]
           (NewProgressSpinner "Connecting") [Empty; Empty] []).
  - reflexivity.
  - split; [discriminate|reflexivity].
  - repeat constructor.
  - repeat constructor.
  - reflexivity.
  - cbn. intros [H|[H|[H|[]]]]; discriminate H.
  - reflexivity.
  - discriminate.
  - reflexivity.
  - discriminate.
Defined.

Lemma loading_signal_before_delay_witness :
  renderLoading (NewLoadingMessage "Pinging" Wheel 500000000)
                [Empty; SetPrompt "Still pinging"; Empty; Got success] = ([], Returned) /\
  output_bytes (fst (renderLoading (NewLoadingMessage "Pinging" Wheel 500000000)
                       [Empty; SetPrompt "Still pinging"; Empty; Got success])) = "".
Proof.
  apply (loading_signal_before_delay (NewLoadingMessage "Pinging" Wheel 500000000)
           [Empty; SetPrompt "Still pinging"; Empty] success []).
  - reflexivity.
  - reflexivity.
Defined.

Lemma loading_Fail_is_Success_witness :
  Fail (NewLoadingMessage "Pinging" Wheel 0) = Success (NewLoadingMessage "Pinging" Wheel 0) /\
  sent_c (Fail (NewLoadingMessage "Pinging" Wheel 0)) = [success] /\
  loading_loop (NewLoadingMessage "Pinging" Wheel 0) 3 [Got fail] =
  ([Write (hide_cursor ++ CR ++ repeat_string " " 11 ++ CR ++ LF)], Returned) /\
  len (repeat_string " " 11) = 11.
Proof.
  apply (loading_Fail_is_Success (NewLoadingMessage "Pinging" Wheel 0) "|" 3 fail []).
  - reflexivity.
  - reflexivity.
  - discriminate.
Defined.

Lemma spinLookup_cyclic_witness :
  spinLookup 5 Wheel = nth_error Wheel 1 /\
  (exists frame, spinLookup 5 Wheel = Some frame) /\
  spinLookup 9 Wheel = spinLookup 5 Wheel.
Proof.
  apply (spinLookup_cyclic Wheel 5).
  - discriminate.
  - discriminate.
Defined.

Lemma Start_bar_channel_witness :
  run (mkworld (NewProgressBar "Uploading") []) (Start (NewProgressBar "Uploading")) =
  Finished (mkworld (set_wg (set_cf (NewProgressBar "Uploading")
                                    (Some (mkchan 2 [f64_0] false))) 1)
                    [GoRenderBar]).
Proof.
  apply (Start_bar_channel sgr fixed0 (NewProgressBar "Uploading")
           f64_quarter f64_1 f64_1 []).
  - reflexivity.
  - discriminate.
  - split; [discriminate|reflexivity].
Defined.

Lemma spinner_idle_iteration_witness :
  (exists frame : string,
      nth_error Wheel 1 = Some frame /\
      spinner_loop sgr (NewProgressSpinner "Connecting") 5 [Empty] =
      emit [Write (hide_cursor ++ CR ++ "Connecting" ++ "[" ++ frame ++ "]"); Sleep 100]
           (spinner_loop sgr (NewProgressSpinner "Connecting") 6 [])) /\
  dotLen (NewProgressSpinner "Connecting") = 20.
Proof.
  apply (spinner_idle_iteration sgr (NewProgressSpinner "Connecting") 5 []).
  - discriminate.
  - split; [discriminate|reflexivity].
  - split; discriminate.
Defined.

Lemma loading_never_shows_cursor_witness :
  occurs show_cursor
    (output_bytes (fst (renderLoading (NewLoadingMessage "Pinging" Wheel 0)
                          [Empty; SetPrompt "Still pinging"; Empty; Got success]))) = false.
Proof.
  apply (loading_never_shows_cursor sgr fixed0 (NewLoadingMessage "Pinging" Wheel 0)
           [Empty; SetPrompt "Still pinging"; Empty; Got success]
           (NewProgressSpinner "Connecting") 0 fail []
           (NewProgressBar "Uploading") []).
  - reflexivity.
  - reflexivity.
  - reflexivity.
  - right. reflexivity.
  - discriminate.
Defined.

(** ** Counterexamples *)

(** C3, counterexample.  [Start], [Update(-2.0)], [Success]: the loop
    returns on the -2.0 with the bar of 'X' and the FAIL mark; the -1.0 of
    [Success] is never received and no full bar with 100% is drawn. *)
Lemma Success_after_Update_sentinel :
  renderBar sgr fixed0 (NewProgressBar "Uploading")
    (map Got (sent_cf (Start (NewProgressBar "Uploading") ++ Update f64_neg2 ++
                       Success (NewProgressBar "Uploading")))) =
  ([Write (bar_line (NewProgressBar "Uploading") (repeat_string " " 20) " 0%");
    Write (bar_line (NewProgressBar "Uploading") (repeat_string "X" 20) (sgr Red "FAIL"));
    Write bar_end], Returned) /\
  ~ In (Write (bar_line (NewProgressBar "Uploading") (repeat_string "=" 20)
                        (sgr Green "100%")))
       (fst (renderBar sgr fixed0 (NewProgressBar "Uploading")
               (map Got (sent_cf (Start (NewProgressBar "Uploading") ++ Update f64_neg2 ++
                                  Success (NewProgressBar "Uploading")))))).
Proof.
  split; [reflexivity|].
  intros H. vm_compute in H. destruct H as [H|[H|[H|[]]]]; discriminate H.
Qed.

(** C4, counterexample.  [Start], [Update(-1.0)], [Fail]: the loop returns
    on the -1.0 with the full bar and the 100% mark; the -2.0 of [Fail] is
    never received and no failure frame is drawn. *)
Lemma Fail_after_Update_sentinel :
  renderBar sgr fixed0 (NewProgressBar "Uploading")
    (map Got (sent_cf (Start (NewProgressBar "Uploading") ++ Update f64_neg1 ++
                       Fail (NewProgressBar "Uploading")))) =
  ([Write (bar_line (NewProgressBar "Uploading") (repeat_string " " 20) " 0%");
    Write (bar_line (NewProgressBar "Uploading") (repeat_string "=" 20) (sgr Green "100%"));
    Write bar_end], Returned) /\
  ~ In (Write (bar_line (NewProgressBar "Uploading") (repeat_string "X" 20)
                        (sgr Red "FAIL")))
       (fst (renderBar sgr fixed0 (NewProgressBar "Uploading")
               (map Got (sent_cf (Start (NewProgressBar "Uploading") ++ Update f64_neg1 ++
                                  Fail (NewProgressBar "Uploading")))))).
Proof.
  split; [reflexivity|].
  intros H. vm_compute in H. destruct H as [H|[H|[H|[]]]]; discriminate H.
Qed.

(** * Further properties of the code *)

(** ** Exact conversions and products *)

(** Shifting out [n] zero bits loses nothing. *)
Lemma iter_shr_1_exact (n : positive) :
  forall m : positive,
    iter_pos shr_1 n (Build_shr_record (Z.pos (Pos.iter xO m n)) false false) =
    Build_shr_record (Z.pos m) false false.
Proof.
  induction n as [n IH|n IH|]; intros m; cbn [iter_pos Pos.iter].
  - cbn [shr_1 orb]. rewrite IH, IH. reflexivity.
  - rewrite IH, IH. reflexivity.
  - reflexivity.
Qed.

Lemma digits2_pos_iter_xO (m d : positive) :
  Z.pos (digits2_pos (Pos.iter xO m d)) = Z.pos (digits2_pos m) + Z.pos d.
Proof.
  induction d as [|d IH] using Pos.peano_ind.
  - cbn. lia.
  - rewrite Pos.iter_succ. cbn [digits2_pos]. lia.
Qed.

(** A mantissa of exactly [prec] digits at an exponent in range is already
    a float: rounding returns it unchanged. *)
Lemma binary_round_aux_canonical (s : bool) (m : positive) (e : Z) :
  Z.pos (digits2_pos m) = prec -> emin prec emax <= e <= emax - prec ->
  binary_round_aux prec emax s (Z.pos m) e loc_Exact = S754_finite s m e.
Proof.
  intros Hd He.
  assert (Hf : fexp prec emax (Zdigits2 (Z.pos m) + e) - e = 0).
  { cbn [Zdigits2]. rewrite Hd. unfold fexp, emin, prec, emax in *. lia. }
  unfold binary_round_aux, shr_fexp. rewrite Hf.
  cbn [shr_record_of_loc shr shr_m loc_of_shr_record round_nearest_even].
  rewrite Hf. cbn [shr shr_m].
  destruct (Z.leb_spec e (emax - prec)); [reflexivity|lia].
Qed.

(** [float64(n)] is exact for [0 < n < 2 ^ 53]: a normal float of mantissa
    [n * 2 ^ (- e)]. *)
Lemma float64_of_int_exact (n : Z) :
  0 < n < 2 ^ 53 ->
  exists (m : positive) (e : Z),
    float64_of_int n = S754_finite false m e /\
    - 52 <= e <= 0 /\ Z.pos m = n * 2 ^ (- e) /\ Z.pos (digits2_pos m) = prec.
Proof.
  intros Hn. destruct n as [|q|q]; try lia.
  assert (Hp : 2 ^ 53 = 9007199254740992) by reflexivity.
  assert (Hq1 : 1 <= Z.pos (digits2_pos q)) by lia.
  assert (Hq2 : Z.pos (digits2_pos q) <= 53).
  { apply (Zdigits2_le (Z.pos q)); lia. }
  unfold float64_of_int, binary_normalize, binary_round, shl_align.
  assert (Hf : fexp prec emax (Z.pos (digits2_pos q) + 0) = Z.pos (digits2_pos q) - 53).
  { unfold fexp, emin, prec, emax. lia. }
  rewrite Hf.
  destruct (Z.pos (digits2_pos q) - 53 - 0) as [|d|d] eqn:Hs; try lia.
  - exists q, 0. rewrite binary_round_aux_canonical.
    + repeat split; try lia. unfold prec. lia.
    + unfold prec. lia.
    + unfold emin, emax, prec. lia.
  - exists (Pos.iter xO q d), (Z.pos (digits2_pos q) - 53).
    rewrite binary_round_aux_canonical.
    + split; [reflexivity|]. split; [lia|]. split.
      * rewrite iter_xO_pow. f_equal. f_equal. lia.
      * rewrite digits2_pos_iter_xO. unfold prec. lia.
    + rewrite digits2_pos_iter_xO. unfold prec. lia.
    + unfold emin, emax, prec. lia.
Qed.

(** [1.0 * y = y] for a normal float [y] of exponent at least -52. *)
Lemma f64_mul_1_l (m : positive) (e : Z) :
  Z.pos (digits2_pos m) = prec -> - 52 <= e <= 0 ->
  f64_mul f64_1 (S754_finite false m e) = S754_finite false m e.
Proof.
  intros Hd He. unfold f64_mul, SFmul, f64_1. cbn [xorb].
  change (4503599627370496 * m)%positive with (Pos.iter xO m 52).
  assert (Hf : fexp prec emax (Zdigits2 (Z.pos (Pos.iter xO m 52)) + (-52 + e))
               - (-52 + e) = 52).
  { cbn [Zdigits2]. rewrite digits2_pos_iter_xO, Hd. unfold fexp, emin, prec, emax. lia. }
  assert (Hf2 : fexp prec emax (Zdigits2 (Z.pos m) + (-52 + e + 52)) - (-52 + e + 52) = 0).
  { cbn [Zdigits2]. rewrite Hd. unfold fexp, emin, prec, emax. lia. }
  unfold binary_round_aux, shr_fexp. rewrite Hf.
  cbn [shr_record_of_loc shr]. rewrite iter_shr_1_exact.
  cbn [shr_m loc_of_shr_record round_nearest_even].
  rewrite Hf2. cbn [shr shr_m].
  replace (-52 + e + 52) with e by lia.
  destruct (Z.leb_spec e (emax - prec)); [reflexivity|unfold emax, prec in *; lia].
Qed.

Lemma int_of_float64_exact (n : Z) (m : positive) (e : Z) :
  0 <= n < 2 ^ 53 -> e <= 0 -> Z.pos m = n * 2 ^ (- e) ->
  int_of_float64 (S754_finite false m e) = n.
Proof.
  intros Hn He Hm.
  assert (Hp : 2 ^ 53 = 9007199254740992) by reflexivity.
  assert (Hv : match e with
               | Z.neg k => Z.pos m / 2 ^ Z.pos k
               | _ => Z.pos m * 2 ^ e
               end = n).
  { destruct e as [|k|k]; [cbn in Hm; lia|lia|].
    change (- Z.neg k) with (Z.pos k) in Hm. rewrite Hm.
    apply Z.div_mul. apply Z.pow_nonzero; lia. }
  unfold int_of_float64. cbn [f64_trunc]. rewrite Hv.
  change int_min with (-9223372036854775808).
  change int_max with 9223372036854775807.
  destruct (Z.leb_spec (-9223372036854775808) n); [|lia].
  destruct (Z.leb_spec n 9223372036854775807); [reflexivity|lia].
Qed.

(** At the argument 1.0 the fill is the whole width. *)
Lemma eqLen_of_one (p : Progress) :
  0 <= DisplayLength p < 2 ^ 53 -> eqLen_of p f64_1 = DisplayLength p.
Proof.
  intros HD. unfold eqLen_of.
  destruct (Z.eq_dec (DisplayLength p) 0) as [H0|H0].
  - rewrite H0. reflexivity.
  - destruct (float64_of_int_exact (DisplayLength p) ltac:(lia))
      as (m & e & -> & He & Hm & Hd).
    rewrite f64_mul_1_l by assumption.
    apply int_of_float64_exact; [assumption|lia|assumption].
Qed.

Lemma append_nil_r (s : string) : s ++ "" = s.
Proof. induction s as [|ch s IH]; cbn; [reflexivity|]. now rewrite IH. Qed.

Lemma len_append (a b : string) : len (a ++ b) = len a + len b.
Proof. unfold len. rewrite length_append. lia. Qed.

Lemma snd_emit (l : list effect) (r : list effect * status) : snd (emit l r) = snd r.
Proof. reflexivity. Qed.

Lemma fst_emit (l : list effect) (r : list effect * status) :
  fst (emit l r) = (l ++ fst r)%list.
Proof. reflexivity. Qed.

Section BarExtras.

Variable ApplyTo : Color -> string -> string.
Variable fmt_2_0f : float64 -> string.

(** The inside of every progress line is as wide as the bar: the run of
    '=' and the run of spaces that follows it add up to [DisplayLength]
    bytes, for every fraction [f >= 0] passed to [Update]. *)
Theorem bar_inside_has_display_width (p : Progress) (f : float64) :
  valid_float64 f = true ->
  f64_geb f f64_0 = true ->
  0 <= DisplayLength p < 2 ^ 53 ->
  len (repeat_string "=" (Z.to_nat (eqLen_of p (capped f))) ++
       repeat_string " " (Z.to_nat (DisplayLength p - eqLen_of p (capped f)))) =
  DisplayLength p.
Proof.
  intros Hv Hge HD.
  pose proof (eqLen_of_below p (capped f) HD (clamp_below f Hv Hge)) as Hn.
  rewrite len_append, !len_repeat_string by lia.
  change (len "=") with 1. change (len " ") with 1. lia.
Qed.

(** An argument of 1.0 or more fills the bar: [Update] sends exactly 1.0,
    the product [1.0 * float64(DisplayLength)] is exact, and the progress
    line has [DisplayLength] characters '=' and no space. *)
Theorem Update_one_or_more_fills_bar
  (p : Progress) (f : float64) (rest : list (event float64)) :
  f64_geb f f64_1 = true ->
  0 <= DisplayLength p < 2 ^ 53 ->
  sent_cf (Update f) = [f64_1] /\
  eqLen_of p f64_1 = DisplayLength p /\
  renderBar ApplyTo fmt_2_0f p (Got f64_1 :: rest) =
  emit [Write (bar_line p (repeat_string "=" (Z.to_nat (DisplayLength p)))
                 (fmt_2_0f (f64_mul f64_100 f64_1) ++ "%"))]
       (renderBar ApplyTo fmt_2_0f p rest).
Proof.
  intros Hge HD.
  split; [rewrite sent_cf_Update; unfold capped; rewrite Hge; reflexivity|].
  split; [apply eqLen_of_one; assumption|].
  rewrite renderBar_progress; [|assumption|reflexivity|exact f64_1_below].
  rewrite eqLen_of_one by assumption.
  rewrite Z.sub_diag. cbn [Z.to_nat repeat_string]. rewrite append_nil_r. reflexivity.
Qed.

(** [Update] never puts a value greater than 1 on the channel. *)
Theorem Update_never_sends_above_one (f v : float64) :
  In v (sent_cf (Update f)) -> f64_ltb f64_1 v = false.
Proof.
  rewrite sent_cf_Update. intros [<-|[]]. unfold capped, f64_geb, SFleb, f64_ltb, SFltb.
  destruct (SFcompare f64_1 f) as [[| |]|] eqn:E; try reflexivity; rewrite E; reflexivity.
Qed.

(** Once [renderBar] has returned or panicked, nothing that happens later
    changes what it did: no write follows the final frame. *)
Theorem renderBar_stops (evs : list (event float64)) :
  forall (p : Progress) (extra : list (event float64)),
    snd (renderBar ApplyTo fmt_2_0f p evs) <> Running ->
    renderBar ApplyTo fmt_2_0f p (evs ++ extra) = renderBar ApplyTo fmt_2_0f p evs.
Proof.
  induction evs as [|ev evs IH]; intros p extra Hst.
  - exfalso. apply Hst. reflexivity.
  - destruct ev as [s|v| | |]; cbn [app renderBar] in *; try (apply IH; exact Hst).
    + destruct (f64_eqb v f64_neg1); [reflexivity|].
      destruct (f64_eqb v f64_neg2); [reflexivity|].
      destruct (f64_geb v f64_0); [|apply IH; exact Hst].
      destruct (Repeat "=" _); [|reflexivity].
      destruct (Repeat " " _); [|reflexivity].
      rewrite snd_emit in Hst. rewrite (IH p extra Hst). reflexivity.
    + reflexivity.
Qed.

(** [renderBar] returns only on a sentinel or when its channel is closed:
    as long as neither was observed it has not returned. *)
Theorem renderBar_returns_only_on_signal (evs : list (event float64)) :
  forall p : Progress,
    (forall v, In (Got v) evs -> sentinel v = false) ->
    ~ In Closed evs ->
    snd (renderBar ApplyTo fmt_2_0f p evs) <> Returned.
Proof.
  induction evs as [|ev evs IH]; intros p Hs Hcl.
  - discriminate.
  - assert (Hs' : forall v, In (Got v) evs -> sentinel v = false)
      by (intros v Hv; apply Hs; right; exact Hv).
    assert (Hcl' : ~ In Closed evs) by (intros H; apply Hcl; right; exact H).
    destruct ev as [s|v| | |]; cbn [renderBar]; try (apply IH; assumption).
    + specialize (Hs v (or_introl eq_refl)). unfold sentinel in Hs.
      apply orb_false_iff in Hs. destruct Hs as (-> & ->).
      destruct (f64_geb v f64_0); [|apply IH; assumption].
      destruct (Repeat "=" _); [|discriminate].
      destruct (Repeat " " _); [|discriminate].
      rewrite snd_emit. apply IH; assumption.
    + exfalso. apply Hcl. left. reflexivity.
Qed.

(** A bar with a negative [DisplayLength] never ends normally: drawing a
    final frame panics in [strings.Repeat], so whatever is delivered the
    function has not returned, and on a sentinel it has panicked without a
    write. *)
Theorem negative_width_never_returns (evs : list (event float64)) :
  forall (p : Progress) (rest : list (event float64)),
    DisplayLength p < 0 ->
    ~ In Closed evs ->
    snd (renderBar ApplyTo fmt_2_0f p evs) <> Returned /\
    renderBar ApplyTo fmt_2_0f p (Got f64_neg1 :: rest) = ([], Panicked) /\
    renderBar ApplyTo fmt_2_0f p (Got f64_neg2 :: rest) = ([], Panicked).
Proof.
  intros p rest HD Hcl. split; [|split].
  - revert p HD Hcl. induction evs as [|ev evs IH]; intros p HD Hcl.
    + discriminate.
    + assert (Hcl' : ~ In Closed evs) by (intros H; apply Hcl; right; exact H).
      destruct ev as [s|v| | |]; cbn [renderBar]; try (apply IH; assumption).
      * unfold bar_done. rewrite !Repeat_negative by assumption.
        destruct (f64_eqb v f64_neg1); [discriminate|].
        destruct (f64_eqb v f64_neg2); [discriminate|].
        destruct (f64_geb v f64_0); [|apply IH; assumption].
        destruct (Repeat "=" _); [|discriminate].
        destruct (Repeat " " _); [|discriminate].
        rewrite snd_emit. apply IH; assumption.
      * exfalso. apply Hcl. left. reflexivity.
  - cbn [renderBar]. change (f64_eqb f64_neg1 f64_neg1) with true. cbv iota.
    unfold bar_done. rewrite Repeat_negative by assumption. reflexivity.
  - cbn [renderBar]. change (f64_eqb f64_neg2 f64_neg1) with false.
    change (f64_eqb f64_neg2 f64_neg2) with true. cbv iota.
    unfold bar_done. rewrite Repeat_negative by assumption. reflexivity.
Qed.

(** The traffic of a bar session: [Start] sends 0.0, each [Update] sends
    its capped argument, [Success] sends -1.0 and [Fail] -2.0, in call
    order; nothing is sent on the other channel. *)
Theorem bar_session_traffic (p : Progress) (fs : list float64) :
  style p = bar ->
  sent_cf (Start p ++ flat_map Update fs ++ Success p) =
    (f64_0 :: map capped fs ++ [f64_neg1])%list /\
  sent_cf (Start p ++ flat_map Update fs ++ Fail p) =
    (f64_0 :: map capped fs ++ [f64_neg2])%list /\
  sent_c (Start p ++ flat_map Update fs ++ Success p) = [] /\
  sent_c (Start p ++ flat_map Update fs ++ Fail p) = [].
Proof.
  intros Hst. destruct (sent_cf_bar p Hst) as (H1 & H2 & H3).
  assert (Hc : sent_c (flat_map Update fs) = []).
  { induction fs as [|f fs IH]; [reflexivity|].
    cbn [flat_map]. rewrite sent_c_app, IH. reflexivity. }
  rewrite !sent_cf_app, !sent_c_app, H1, H2, H3, sent_cf_Updates, Hc.
  unfold Start, Success, Fail, close_ops. rewrite Hst. repeat split.
Qed.

End BarExtras.

Section LoopExtras.

Variable ApplyTo : Color -> string -> string.

(** [Success] on a spinner ends the display with the prompt followed by
    the success-styled OK mark in brackets, whatever prompt changes and
    idle iterations came before; the line starts with show-cursor and a
    carriage return and ends with a line feed. *)
Theorem spinner_Success_draws_OK
  (p : Progress) (pre rest : list (event Z)) :
  style p = spinner ->
  spinsteps p <> [] ->
  forallb quiet pre = true ->
  idle_count pre <= int_max ->
  exists l : list effect,
    renderSpinner ApplyTo p (pre ++ map Got (sent_c (Success p)) ++ rest) =
    ((l ++ [Write (show_cursor ++ CR ++ Prompt (prompt_after p pre) ++
                   "[" ++ ApplyTo Green "OK" ++ "]" ++ LF)])%list, Returned).
Proof.
  intros Hst Hne Hq Hmax. unfold renderSpinner.
  destruct (spinner_loop_quiet ApplyTo pre p 0
              (map Got (sent_c (Success p)) ++ rest) Hne ltac:(lia) ltac:(lia) Hq)
    as (l & ->).
  exists l. unfold Success. rewrite Hst. reflexivity.
Qed.

(** The spinner draws its frames in table order, one per idle iteration
    and each followed by a sleep of 100 ms: after [k] idle iterations the
    effects are, for [j = 0 .. k-1], the line with frame [j mod n] and the
    sleep; the goroutine is still running. *)
Theorem spinner_frames_in_order (p : Progress) (k : nat) :
  spinsteps p <> [] ->
  Z.of_nat k <= int_max ->
  renderSpinner ApplyTo p (repeat Empty k) =
  (flat_map (fun j =>
               match nth_error (spinsteps p)
                               (j mod List.length (spinsteps p)) with
               | Some frame => [Write (spinner_frame p frame); Sleep 100]
               | None => []
               end) (seq 0 k), Running).
Proof.
  intros Hne Hk. unfold renderSpinner.
  change 0 with (Z.of_nat 0) at 1.
  assert (H : forall s, Z.of_nat s + Z.of_nat k <= int_max ->
            spinner_loop ApplyTo p (Z.of_nat s) (repeat Empty k) =
            (flat_map (fun j =>
               match nth_error (spinsteps p) (j mod List.length (spinsteps p)) with
               | Some frame => [Write (spinner_frame p frame); Sleep 100]
               | None => []
               end) (seq s k), Running)); [|apply H; lia].
  clear Hk. induction k as [|k IH]; intros s Hs; [reflexivity|].
  cbn [repeat spinner_loop seq flat_map].
  rewrite spinLookup_nonneg by first [assumption|lia].
  assert (Hn : List.length (spinsteps p) <> 0%nat)
    by (destruct (spinsteps p); [contradiction|discriminate]).
  rewrite <- Nat2Z.inj_mod, Nat2Z.id.
  destruct (nth_error (spinsteps p) (s mod List.length (spinsteps p))) as [frame|] eqn:E.
  - rewrite int_add_exact
      by (apply in_int_small; change int_max with 9223372036854775807 in *; lia).
    replace (Z.of_nat s + 1) with (Z.of_nat (S s)) by lia.
    rewrite IH by lia. reflexivity.
  - exfalso. apply nth_error_None in E.
    pose proof (Nat.mod_upper_bound s _ Hn). lia.
Qed.

(** The visible loop of the loading indicator: an iteration that finds no
    signal writes hide-cursor, a carriage return, the frame at [i mod n],
    two spaces and the prompt, then sleeps 250 ms and goes on with the
    index [i + 1]. *)
Theorem loading_idle_iteration (p : Progress) (i : Z) (rest : list (event Z)) :
  spinsteps p <> [] ->
  0 <= i < int_max ->
  exists frame : string,
    nth_error (spinsteps p)
              (Z.to_nat (i mod Z.of_nat (List.length (spinsteps p)))) = Some frame /\
    loading_loop p i (Empty :: rest) =
    emit [Write (hide_cursor ++ CR ++ frame ++ "  " ++ Prompt p); Sleep 250]
         (loading_loop p (i + 1) rest).
Proof.
  intros Hne Hi.
  destruct (spinLookup_some i (spinsteps p) Hne ltac:(lia)) as (frame & Hf).
  exists frame. split; [rewrite <- spinLookup_nonneg by first [assumption|lia]; exact Hf|].
  cbn [loading_loop]. rewrite Hf.
  rewrite int_add_exact by (apply in_int_small; lia). reflexivity.
Qed.

(** When the signal is already there as the delay ends, or at the first
    iteration of an indicator without delay, the loading goroutine draws no
    frame at all: its only write is the erase line. *)
Theorem loading_signal_at_first_iteration
  (p : Progress) (pre : list (event Z)) (first : string) (r : Z) (rest : list (event Z)) :
  forallb gated pre = true ->
  nth_error (spinsteps p) 0 = Some first ->
  len first + len (Prompt (prompt_after p pre)) + 3 <= int_max ->
  (0 < delay p ->
   renderLoading p (pre ++ Timer :: Got r :: rest) =
   ([Write (loading_erase
              (repeat_string " "
                 (Z.to_nat (len first + len (Prompt (prompt_after p pre)) + 3))))],
    Returned)) /\
  (delay p <= 0 ->
   renderLoading (prompt_after p pre) (Got r :: rest) =
   ([Write (loading_erase
              (repeat_string " "
                 (Z.to_nat (len first + len (Prompt (prompt_after p pre)) + 3))))],
    Returned)).
Proof.
  intros Hg Hfirst Hmax.
  pose proof (len_nonneg first). pose proof (len_nonneg (Prompt (prompt_after p pre))).
  destruct (prompt_after_fields pre p) as (Hsteps & _ & Hdelay & _).
  assert (Hres : loading_result (prompt_after p pre) =
                 ([Write (loading_erase
                            (repeat_string " "
                               (Z.to_nat (len first + len (Prompt (prompt_after p pre)) + 3))))],
                  Returned)).
  { unfold loading_result. rewrite Hsteps, Hfirst.
    rewrite (int_add_exact (len first) (len (Prompt (prompt_after p pre))))
      by (apply in_int_small; lia).
    rewrite int_add_exact by (apply in_int_small; lia).
    rewrite Repeat_nonneg by lia. reflexivity. }
  split; intros Hd; unfold renderLoading.
  - destruct (Z.ltb_spec 0 (delay p)); [|lia].
    rewrite loading_gate_gated by assumption. cbn [loading_gate loading_loop]. exact Hres.
  - rewrite Hdelay. destruct (Z.ltb_spec 0 (delay p)); [lia|].
    cbn [loading_loop]. exact Hres.
Qed.

(** The erase line covers what the loop drew: it is one space wider than
    the line of the first frame, so it overwrites every frame line whose
    frame is at most one byte longer than the first frame. *)
Theorem loading_erase_covers_frame (p : Progress) (first frame : string) :
  nth_error (spinsteps p) 0 = Some first ->
  len frame <= len first + 1 ->
  len first + len (Prompt p) + 3 <= int_max ->
  exists spaces : string,
    fst (loading_result p) = [Write (loading_erase spaces)] /\
    len spaces = len (first ++ "  " ++ Prompt p) + 1 /\
    len (frame ++ "  " ++ Prompt p) <= len spaces.
Proof.
  intros Hfirst Hfr Hmax.
  pose proof (len_nonneg first). pose proof (len_nonneg (Prompt p)).
  exists (repeat_string " " (Z.to_nat (len first + len (Prompt p) + 3))).
  split; [|split].
  - unfold loading_result. rewrite Hfirst.
    rewrite (int_add_exact (len first) (len (Prompt p))) by (apply in_int_small; lia).
    rewrite int_add_exact by (apply in_int_small; lia).
    rewrite Repeat_nonneg by lia. reflexivity.
  - rewrite len_repeat_string, !len_append by lia.
    change (len " ") with 1. change (len "  ") with 2. lia.
  - rewrite len_repeat_string, !len_append by lia.
    change (len " ") with 1. change (len "  ") with 2. lia.
Qed.

(** With an empty frame table the loading indicator never writes a byte,
    and its visible loop never returns: the first iteration, idle or
    signalled, panics. *)
Theorem loading_empty_frames (evs : list (event Z)) :
  forall (p : Progress) (i : Z),
    spinsteps p = [] ->
    fst (renderLoading p evs) = [] /\
    fst (loading_loop p i evs) = [] /\
    snd (loading_loop p i evs) <> Returned.
Proof.
  assert (Hloop : forall evs p i, spinsteps p = [] ->
            fst (loading_loop p i evs) = [] /\ snd (loading_loop p i evs) <> Returned).
  { clear evs. induction evs as [|ev evs IH]; intros p i Hs.
    - split; [reflexivity|discriminate].
    - destruct ev as [s|v| | |]; cbn [loading_loop];
        try (apply IH; exact Hs);
        unfold loading_result, spinLookup, int_rem; rewrite Hs; cbn;
        split; [reflexivity|discriminate|reflexivity|discriminate|reflexivity|discriminate]. }
  intros p i Hs. split; [|apply Hloop; exact Hs].
  unfold renderLoading. destruct (0 <? delay p); [|apply Hloop; exact Hs].
  revert p Hs. induction evs as [|ev evs IH]; intros p Hs; [reflexivity|].
  destruct ev as [s|v| | |]; cbn [loading_gate]; try reflexivity.
  - apply IH. exact Hs.
  - apply IH. exact Hs.
  - apply Hloop. exact Hs.
Qed.

(** The spinner and the loading indicator keep running until something
    arrives on their channel: without a delivery or a close they have not
    returned, however long they spin. *)
Theorem loops_run_until_signal (evs : list (event Z)) :
  forall p : Progress,
    forallb quiet evs = true ->
    snd (renderSpinner ApplyTo p evs) <> Returned /\
    snd (renderLoading p evs) <> Returned.
Proof.
  assert (Hs : forall evs p i, forallb quiet evs = true ->
            snd (spinner_loop ApplyTo p i evs) <> Returned).
  { clear evs. induction evs as [|ev evs IH]; intros p i Hq; [discriminate|].
    cbn [forallb] in Hq. apply andb_true_iff in Hq. destruct Hq as (Hev & Hq).
    destruct ev as [s|v| | |]; try discriminate Hev; cbn [spinner_loop];
      try (apply IH; exact Hq).
    destruct (spinLookup i (spinsteps p)); [|discriminate].
    rewrite snd_emit. apply IH; exact Hq. }
  assert (Hl : forall evs p i, forallb quiet evs = true ->
            snd (loading_loop p i evs) <> Returned).
  { clear evs Hs. induction evs as [|ev evs IH]; intros p i Hq; [discriminate|].
    cbn [forallb] in Hq. apply andb_true_iff in Hq. destruct Hq as (Hev & Hq).
    destruct ev as [s|v| | |]; try discriminate Hev; cbn [loading_loop];
      try (apply IH; exact Hq).
    destruct (spinLookup i (spinsteps p)); [|discriminate].
    rewrite snd_emit. apply IH; exact Hq. }
  intros p Hq. split; [apply Hs; exact Hq|].
  unfold renderLoading. destruct (0 <? delay p); [|apply Hl; exact Hq].
  revert p. induction evs as [|ev evs IH]; intros p; [discriminate|].
  cbn [forallb] in Hq. apply andb_true_iff in Hq. destruct Hq as (Hev & Hq).
  destruct ev as [s|v| | |]; try discriminate Hev; cbn [loading_gate].
  - apply IH; exact Hq.
  - apply IH; exact Hq.
  - apply Hl; exact Hq.
Qed.

(** Once the spinner or the loading indicator has returned or panicked,
    later observations change nothing: no frame follows the final line. *)
Theorem loops_stop
  (p : Progress) (evs : list (event Z))
  (p' : Progress) (evs' : list (event Z)) (extra : list (event Z)) :
  snd (renderSpinner ApplyTo p evs) <> Running ->
  snd (renderLoading p' evs') <> Running ->
  renderSpinner ApplyTo p (evs ++ extra) = renderSpinner ApplyTo p evs /\
  renderLoading p' (evs' ++ extra) = renderLoading p' evs'.
Proof.
  assert (Hs : forall evs p i,
            snd (spinner_loop ApplyTo p i evs) <> Running ->
            spinner_loop ApplyTo p i (evs ++ extra) = spinner_loop ApplyTo p i evs).
  { clear. induction evs as [|ev evs IH]; intros p i Hst.
    - exfalso. apply Hst. reflexivity.
    - destruct ev as [s|v| | |]; cbn [app spinner_loop] in *;
        try (apply IH; exact Hst); try reflexivity.
      destruct (spinLookup i (spinsteps p)); [|reflexivity].
      rewrite snd_emit in Hst. rewrite (IH _ _ Hst). reflexivity. }
  assert (Hl : forall evs p i,
            snd (loading_loop p i evs) <> Running ->
            loading_loop p i (evs ++ extra) = loading_loop p i evs).
  { clear. induction evs as [|ev evs IH]; intros p i Hst.
    - exfalso. apply Hst. reflexivity.
    - destruct ev as [s|v| | |]; cbn [app loading_loop] in *;
        try (apply IH; exact Hst); try reflexivity.
      destruct (spinLookup i (spinsteps p)); [|reflexivity].
      rewrite snd_emit in Hst. rewrite (IH _ _ Hst). reflexivity. }
  assert (Hg : forall evs p,
            snd (loading_gate p evs) <> Running ->
            loading_gate p (evs ++ extra) = loading_gate p evs).
  { clear - Hl. induction evs as [|ev evs IH]; intros p Hst.
    - exfalso. apply Hst. reflexivity.
    - destruct ev as [s|v| | |]; cbn [app loading_gate] in *;
        try (apply IH; exact Hst); try reflexivity.
      apply Hl. exact Hst. }
  intros H1 H2. split; [apply Hs; exact H1|].
  unfold renderLoading in *. destruct (0 <? delay p'); [apply Hg|apply Hl]; exact H2.
Qed.

End LoopExtras.

(** ** The methods on the shared structure *)

(** [Update] on a controller that is not a bar never returns: [Start]
    leaves [cf] nil for the other styles, and a send on a nil channel
    blocks for ever (it does not panic).  The caller stays in the send
    with the wait-group counter raised. *)
Theorem Update_without_bar_channel_blocks (p : Progress) (pct : float64) :
  style p <> bar ->
  cf p = None ->
  0 <= wg p ->
  exists w : world,
    run (mkworld p []) (Start p ++ Update pct) =
    Blocked w [SendCf (capped pct); WgDone] /\
    cf (shared w) = None /\
    wg (shared w) = wg p + 2.
Proof.
  intros Hst Hcf Hwg.
  assert (E1 : (wg p + 1 <? 0) = false) by (apply Z.ltb_ge; lia).
  assert (E2 : (wg p + 1 + 1 <? 0) = false) by (apply Z.ltb_ge; lia).
  unfold Start.
  destruct (Z.eqb_spec (style p) spinner) as [_|_];
    [|destruct (Z.eqb_spec (style p) bar) as [Hb|_]; [contradiction|];
      destruct (Z.eqb_spec (style p) loading) as [_|_]];
    cbn; rewrite E1; cbn; rewrite E2; cbn; rewrite Hcf; cbn;
    eexists; (split; [reflexivity|]); (split; [cbn; assumption|cbn; lia]).
Qed.

(** Before [Start] every channel is nil, so [Success], [Fail] and [Update]
    all wait in their send: none of them completes. *)
Theorem methods_before_Start_block (p : Progress) (l : list goroutine) (pct : float64) :
  style p = spinner \/ style p = bar \/ style p = loading ->
  cf p = None ->
  c p = None ->
  0 <= wg p ->
  run (mkworld p l) (Success p) = Blocked (mkworld p l) (Success p) /\
  run (mkworld p l) (Fail p) = Blocked (mkworld p l) (Fail p) /\
  run (mkworld p l) (Update pct) =
  Blocked (mkworld (set_wg p (wg p + 1)) l) [SendCf (capped pct); WgDone].
Proof.
  intros Hst Hcf Hc Hwg.
  assert (E1 : (wg p + 1 <? 0) = false) by (apply Z.ltb_ge; lia).
  split; [|split].
  - unfold Success, close_ops.
    destruct Hst as [H|[H|H]]; rewrite H; cbn; rewrite ?Hcf, ?Hc; reflexivity.
  - unfold Fail, close_ops.
    destruct Hst as [H|[H|H]]; rewrite H; cbn; rewrite ?Hcf, ?Hc; reflexivity.
  - cbn. rewrite E1. cbn. rewrite Hcf. reflexivity.
Qed.

(** The end of a bar's life.  While the rendering goroutine is alive
    [Success] gets its -1.0 accepted and then waits in [wg.Wait]; once the
    goroutine has called [wg.Done] the wait ends and the channel is
    closed; after that a second [Success], a [Fail] or an [Update] panics
    in its send on the closed channel. *)
Theorem Success_bar_lifecycle
  (p : Progress) (q : chan float64) (l : list goroutine)
  (left_over : list float64) (pct : float64) :
  style p = bar ->
  cf p = Some q ->
  closed q = false ->
  (List.length (buf q) < cap q)%nat ->
  0 < wg p ->
  run (mkworld p l) (Success p) =
  Blocked (mkworld (set_cf p (Some (mkchan (cap q) (buf q ++ [f64_neg1]) false))) l)
          [WgWait; CloseCf] /\
  run (mkworld (set_wg (set_cf p (Some (mkchan (cap q) left_over false))) 0) l)
      [WgWait; CloseCf] =
  Finished (mkworld (set_wg (set_cf p (Some (mkchan (cap q) left_over true))) 0) l) /\
  run (mkworld (set_wg (set_cf p (Some (mkchan (cap q) left_over true))) 0) l)
      (Success p) = Crashed /\
  run (mkworld (set_wg (set_cf p (Some (mkchan (cap q) left_over true))) 0) l)
      (Fail p) = Crashed /\
  run (mkworld (set_wg (set_cf p (Some (mkchan (cap q) left_over true))) 0) l)
      (Update pct) = Crashed.
Proof.
  intros Hst Hcf Hcl Hroom Hwg.
  assert (E : (wg p =? 0) = false) by (apply Z.eqb_neq; lia).
  assert (Hlt : (List.length (buf q) <? cap q)%nat = true) by (apply Nat.ltb_lt; exact Hroom).
  unfold Success, Fail, close_ops. rewrite Hst.
  split; [|repeat split].
  cbn -[Nat.ltb]. rewrite Hcf. cbn -[Nat.ltb]. rewrite Hcl, Hlt. cbn. rewrite E. reflexivity.
Qed.

(** [Start] on a spinner or a loading indicator makes an unbuffered channel
    and launches the one matching goroutine; it sends nothing.  [Success]
    and [Fail] then cannot complete on their own: their send waits until
    the rendering goroutine receives. *)
Theorem Start_unbuffered_then_signal_waits (p : Progress) :
  style p = spinner \/ style p = loading ->
  0 <= wg p ->
  run (mkworld p []) (Start p) =
  Finished (mkworld (set_c (set_wg p (wg p + 1)) (Some (make_chan 0)))
                    [if style p =? spinner then GoRenderSpinner else GoRenderLoading]) /\
  sent_c (Start p) = [] /\
  sent_cf (Start p) = [] /\
  run (mkworld (set_c (set_wg p (wg p + 1)) (Some (make_chan 0)))
               [if style p =? spinner then GoRenderSpinner else GoRenderLoading])
      (Success p) =
  Blocked (mkworld (set_c (set_wg p (wg p + 1)) (Some (make_chan 0)))
                   [if style p =? spinner then GoRenderSpinner else GoRenderLoading])
          (Success p) /\
  run (mkworld (set_c (set_wg p (wg p + 1)) (Some (make_chan 0)))
               [if style p =? spinner then GoRenderSpinner else GoRenderLoading])
      (Fail p) =
  Blocked (mkworld (set_c (set_wg p (wg p + 1)) (Some (make_chan 0)))
                   [if style p =? spinner then GoRenderSpinner else GoRenderLoading])
          (Fail p).
Proof.
  intros Hst Hwg.
  assert (E1 : (wg p + 1 <? 0) = false) by (apply Z.ltb_ge; lia).
  unfold Start, Success, Fail, close_ops.
  destruct Hst as [H|H]; rewrite H; cbn; rewrite E1; repeat split.
Qed.

Section PromptExtras.

Variable ApplyTo : Color -> string -> string.

(** [UpdatePrompt] returns at once with the prompt stored and the counter
    of the wait group as it was; of two calls the later prompt stays.  The
    spinner shows the new prompt in the first frame it draws after the
    change. *)
Theorem UpdatePrompt_next_frame
  (w : world) (s1 s2 : string) (p : Progress) (i : Z) (rest : list (event Z)) :
  0 <= wg (shared w) ->
  spinsteps p <> [] ->
  0 <= i < int_max ->
  run w (UpdatePrompt s1 ++ UpdatePrompt s2) =
  Finished (with_shared w (set_Prompt (shared w) s2)) /\
  exists frame : string,
    spinner_loop ApplyTo p i (SetPrompt s2 :: Empty :: rest) =
    emit [Write (hide_cursor ++ CR ++ s2 ++ "[" ++ frame ++ "]"); Sleep 100]
         (spinner_loop ApplyTo (set_Prompt p s2) (i + 1) rest).
Proof.
  intros Hwg Hne Hi. split.
  - assert (E1 : (wg (shared w) + 1 <? 0) = false) by (apply Z.ltb_ge; lia).
    assert (E2 : (wg (shared w) + 1 - 1 <? 0) = false) by (apply Z.ltb_ge; lia).
    assert (E3 : wg (shared w) + 1 - 1 = wg (shared w)) by lia.
    cbn. rewrite E1. cbn. rewrite E2, E3. cbn. rewrite E1. cbn. rewrite E2, E3.
    reflexivity.
  - destruct (spinLookup_some i (spinsteps p) Hne ltac:(lia)) as (frame & Hf).
    exists frame. cbn [spinner_loop]. cbn [set_Prompt spinsteps]. rewrite Hf.
    rewrite int_add_exact by (apply in_int_small; lia). reflexivity.
Qed.

End PromptExtras.



Section BarInvariant.

Variable ApplyTo : Color -> string -> string.
Variable fmt_2_0f : float64 -> string.

(** Every line [renderBar] draws is as wide as the bar.  When all the
    values delivered were sent by [Update] on float64 arguments or are the
    0.0 of [Start] and the sentinels, each write is either the closing
    show-cursor with line feed or a line whose part between the brackets
    has exactly [DisplayLength] bytes, and the function never panics. *)
Theorem bar_lines_have_display_width (evs : list (event float64)) :
  forall p : Progress,
    0 <= DisplayLength p < 2 ^ 53 ->
    Forall (fun v => exists f, valid_float64 f = true /\ v = capped f) (received evs) ->
    snd (renderBar ApplyTo fmt_2_0f p evs) <> Panicked /\
    forall w, In w (writes (fst (renderBar ApplyTo fmt_2_0f p evs))) ->
      w = show_cursor ++ LF \/
      exists (q : Progress) (inside mark : string),
        w = bar_line q inside mark /\ len inside = DisplayLength p.
Proof.
  induction evs as [|ev evs IH]; intros p HD Hrx.
  - split; [discriminate|intros w []].
  - destruct ev as [s|v| | |]; cbn [received] in Hrx; cbn [renderBar].
    + apply (IH (set_Prompt p s)); assumption.
    + inversion Hrx as [|? ? (f & Hv & Hf) Hrx']; subst.
      destruct (f64_eqb (capped f) f64_neg1) eqn:E1;
        [|destruct (f64_eqb (capped f) f64_neg2) eqn:E2].
      * unfold bar_done. rewrite Repeat_nonneg by lia. split; [discriminate|].
        intros w [<-|[<-|[]]]; [right|left; reflexivity].
        eexists p, _, _. split; [reflexivity|].
        rewrite len_repeat_string by lia. change (len "=") with 1. lia.
      * unfold bar_done. rewrite Repeat_nonneg by lia. split; [discriminate|].
        intros w [<-|[<-|[]]]; [right|left; reflexivity].
        eexists p, _, _. split; [reflexivity|].
        rewrite len_repeat_string by lia. change (len "X") with 1. lia.
      * destruct (f64_geb (capped f) f64_0) eqn:Hge; [|apply IH; assumption].
        pose proof (eqLen_of_below p (capped f) HD (capped_below f Hv Hge)) as Hn.
        change (2 ^ 53) with 9007199254740992 in HD.
        rewrite int_sub_exact
          by (apply in_int_small; change int_max with 9223372036854775807; lia).
        rewrite !Repeat_nonneg by lia.
        destruct (IH p ltac:(change (2 ^ 53) with 9007199254740992; lia) Hrx') as (IH1 & IH2).
        rewrite snd_emit, fst_emit. split; [exact IH1|].
        cbn [app writes]. intros w [<-|Hw]; [right|apply IH2; exact Hw].
        eexists p, _, _. split; [reflexivity|].
        rewrite len_append, !len_repeat_string by lia.
        change (len "=") with 1. change (len " ") with 1. lia.
    + apply IH; assumption.
    + split; [discriminate|intros w []].
    + apply IH; assumption.
Qed.

End BarInvariant.

(** ** The further properties at concrete inputs *)

Lemma bar_lines_have_display_width_witness :
  snd (renderBar sgr fixed0 (NewProgressBar "Uploading")
         [Got f64_0; Got f64_quarter; SetPrompt "Done"; Got f64_1; Got f64_neg1])
  <> Panicked /\
  forall w,
    In w (writes (fst (renderBar sgr fixed0 (NewProgressBar "Uploading")
                         [Got f64_0; Got f64_quarter; SetPrompt "Done"; Got f64_1;
                          Got f64_neg1]))) ->
    w = show_cursor ++ LF \/
    exists (q : Progress) (inside mark : string),
      w = bar_line q inside mark /\ len inside = 20.
Proof.
  apply (bar_lines_have_display_width sgr fixed0
           [Got f64_0; Got f64_quarter; SetPrompt "Done"; Got f64_1; Got f64_neg1]
           (NewProgressBar "Uploading")).
  - split; [discriminate|reflexivity].
  - cbn [received]. constructor; [exists f64_0; split; reflexivity|].
    constructor; [exists f64_quarter; split; reflexivity|].
    constructor; [exists f64_1; split; reflexivity|].
    constructor; [exists f64_neg1; split; reflexivity|].
    constructor.
Defined.

Lemma Update_one_or_more_fills_bar_witness :
  sent_cf (Update (S754_infinity false)) = [f64_1] /\
  eqLen_of (NewProgressBar "Uploading") f64_1 = 20 /\
  renderBar sgr fixed0 (NewProgressBar "Uploading") [Got f64_1] =
  emit [Write (bar_line (NewProgressBar "Uploading") (repeat_string "=" 20)
                 (fixed0 (f64_mul f64_100 f64_1) ++ "%"))]
       (renderBar sgr fixed0 (NewProgressBar "Uploading") []).
Proof.
  apply (Update_one_or_more_fills_bar sgr fixed0 (NewProgressBar "Uploading")
           (S754_infinity false) []).
  - reflexivity.
  - split; [discriminate|reflexivity].
Defined.

Lemma Update_never_sends_above_one_witness :
  f64_ltb f64_1 f64_1 = false.
Proof.
  apply (Update_never_sends_above_one (S754_infinity false) f64_1).
  left. reflexivity.
Defined.

Lemma renderBar_stops_witness :
  renderBar sgr fixed0 (NewProgressBar "Uploading")
            ([Got f64_0; Got f64_neg1] ++ [Got f64_quarter; Got f64_neg2]) =
  renderBar sgr fixed0 (NewProgressBar "Uploading") [Got f64_0; Got f64_neg1].
Proof.
  apply (renderBar_stops sgr fixed0 [Got f64_0; Got f64_neg1]
           (NewProgressBar "Uploading") [Got f64_quarter; Got f64_neg2]).
  intros H. vm_compute in H. discriminate H.
Defined.

Lemma renderBar_returns_only_on_signal_witness :
  snd (renderBar sgr fixed0 (NewProgressBar "Uploading")
         [Got f64_0; SetPrompt "Half way"; Got f64_quarter]) <> Returned.
Proof.
  apply (renderBar_returns_only_on_signal sgr fixed0
           [Got f64_0; SetPrompt "Half way"; Got f64_quarter]
           (NewProgressBar "Uploading")).
  - intros v [H|[H|[H|[]]]]; try discriminate H; injection H as <-; reflexivity.
  - intros [H|[H|[H|[]]]]; discriminate H.
Defined.

Lemma negative_width_never_returns_witness :
  snd (renderBar sgr fixed0 (mkProgress "Uploading" (-1) bar None None [] 0 0)
         [Got f64_0; Got f64_neg1]) <> Returned /\
  renderBar sgr fixed0 (mkProgress "Uploading" (-1) bar None None [] 0 0)
            [Got f64_neg1] = ([], Panicked) /\
  renderBar sgr fixed0 (mkProgress "Uploading" (-1) bar None None [] 0 0)
            [Got f64_neg2] = ([], Panicked).
Proof.
  apply (negative_width_never_returns sgr fixed0 [Got f64_0; Got f64_neg1]
           (mkProgress "Uploading" (-1) bar None None [] 0 0) []).
  - reflexivity.
  - intros [H|[H|[]]]; discriminate H.
Defined.

Lemma bar_session_traffic_witness :
  sent_cf (Start (NewProgressBar "Uploading") ++
           flat_map Update [f64_quarter; S754_infinity false] ++
           Success (NewProgressBar "Uploading")) =
  [f64_0; f64_quarter; f64_1; f64_neg1].
Proof.
  apply (bar_session_traffic (NewProgressBar "Uploading")
           [f64_quarter; S754_infinity false]).
  reflexivity.
Defined.

Lemma spinner_Success_draws_OK_witness :
  exists l : list effect,
    renderSpinner sgr (NewProgressSpinner "Connecting")
                  [Empty; SetPrompt "Connected"; Empty; Got success] =
    ((l ++ [Write (show_cursor ++ CR ++ "Connected" ++
                   "[" ++ sgr Green "OK" ++ "]" ++ LF)])%list, Returned).
Proof.
  apply (spinner_Success_draws_OK sgr (NewProgressSpinner "Connecting")
           [Empty; SetPrompt "Connected"; Empty] []).
  - reflexivity.
  - discriminate.
  - reflexivity.
  - discriminate.
Defined.

Lemma spinner_frames_in_order_witness :
  renderSpinner sgr (NewProgressSpinner "Connecting") (repeat Empty 6) =
  (flat_map (fun j =>
               match nth_error Wheel (j mod 4) with
               | Some frame =>
                   [Write (spinner_frame (NewProgressSpinner "Connecting") frame);
                    Sleep 100]
               | None => []
               end) (seq 0 6), Running).
Proof.
  apply (spinner_frames_in_order sgr (NewProgressSpinner "Connecting") 6).
  - discriminate.
  - discriminate.
Defined.

Lemma loading_idle_iteration_witness :
  exists frame : string,
    nth_error Wheel 2 = Some frame /\
    loading_loop (NewLoadingMessage "Pinging" Wheel 0) 6 [Empty] =
    emit [Write (hide_cursor ++ CR ++ frame ++ "  " ++ "Pinging"); Sleep 250]
         (loading_loop (NewLoadingMessage "Pinging" Wheel 0) 7 []).
Proof.
  apply (loading_idle_iteration (NewLoadingMessage "Pinging" Wheel 0) 6 []).
  - discriminate.
  - split; [discriminate|reflexivity].
Defined.

Lemma loading_signal_at_first_iteration_witness :
  renderLoading (NewLoadingMessage "Pinging" Wheel 500000000)
                ([Empty; Empty] ++ [Timer; Got success]) =
  ([Write (loading_erase (repeat_string " " 11))], Returned).
Proof.
  apply (loading_signal_at_first_iteration
           (NewLoadingMessage "Pinging" Wheel 500000000) [Empty; Empty] "|" success []).
  - reflexivity.
  - reflexivity.
  - discriminate.
  - reflexivity.
Defined.

Lemma loading_erase_covers_frame_witness :
  exists spaces : string,
    fst (loading_result (NewLoadingMessage "Pinging" Wheel 0)) =
    [Write (loading_erase spaces)] /\
    len spaces = len ("|" ++ "  " ++ "Pinging") + 1 /\
    len ("/" ++ "  " ++ "Pinging") <= len spaces.
Proof.
  apply (loading_erase_covers_frame (NewLoadingMessage "Pinging" Wheel 0) "|" "/").
  - reflexivity.
  - discriminate.
  - discriminate.
Defined.

Lemma loading_empty_frames_witness :
  fst (renderLoading (NewLoadingMessage "Pinging" [] 0) [Empty; Got success]) = [] /\
  fst (loading_loop (NewLoadingMessage "Pinging" [] 0) 0 [Empty; Got success]) = [] /\
  snd (loading_loop (NewLoadingMessage "Pinging" [] 0) 0 [Empty; Got success]) <> Returned.
Proof.
  apply (loading_empty_frames [Empty; Got success] (NewLoadingMessage "Pinging" [] 0) 0).
  reflexivity.
Defined.

Lemma loops_run_until_signal_witness :
  snd (renderSpinner sgr (NewProgressSpinner "Connecting") [Empty; Empty; Empty])
  <> Returned /\
  snd (renderLoading (NewProgressSpinner "Connecting") [Empty; Empty; Empty])
  <> Returned.
Proof.
  apply (loops_run_until_signal sgr [Empty; Empty; Empty]
           (NewProgressSpinner "Connecting")).
  reflexivity.
Defined.

Lemma loops_stop_witness :
  renderSpinner sgr (NewProgressSpinner "Connecting") ([Empty; Got fail] ++ [Empty]) =
  renderSpinner sgr (NewProgressSpinner "Connecting") [Empty; Got fail] /\
  renderLoading (NewLoadingMessage "Pinging" Wheel 0) ([Got success] ++ [Empty]) =
  renderLoading (NewLoadingMessage "Pinging" Wheel 0) [Got success].
Proof.
  apply (loops_stop sgr (NewProgressSpinner "Connecting") [Empty; Got fail]
           (NewLoadingMessage "Pinging" Wheel 0) [Got success] [Empty]).
  - intros H. vm_compute in H. discriminate H.
  - intros H. vm_compute in H. discriminate H.
Defined.

Lemma Update_without_bar_channel_blocks_witness :
  exists w : world,
    run (mkworld (NewProgressSpinner "Connecting") [])
        (Start (NewProgressSpinner "Connecting") ++ Update f64_quarter) =
    Blocked w [SendCf (capped f64_quarter); WgDone] /\
    cf (shared w) = None /\
    wg (shared w) = 2.
Proof.
  apply (Update_without_bar_channel_blocks (NewProgressSpinner "Connecting") f64_quarter).
  - discriminate.
  - reflexivity.
  - discriminate.
Defined.

Lemma methods_before_Start_block_witness :
  run (mkworld (NewProgressBar "Uploading") []) (Success (NewProgressBar "Uploading")) =
  Blocked (mkworld (NewProgressBar "Uploading") []) (Success (NewProgressBar "Uploading")).
Proof.
  apply (methods_before_Start_block (NewProgressBar "Uploading") [] f64_quarter).
  - right. left. reflexivity.
  - reflexivity.
  - reflexivity.
  - discriminate.
Defined.

Lemma Success_bar_lifecycle_witness :
  run (mkworld (set_wg (set_cf (NewProgressBar "Uploading")
                               (Some (mkchan 2 [] true))) 0) [GoRenderBar])
      (Success (NewProgressBar "Uploading")) = Crashed.
Proof.
  apply (Success_bar_lifecycle
           (set_wg (set_cf (NewProgressBar "Uploading") (Some (make_chan 2))) 1)
           (make_chan 2) [GoRenderBar] [] f64_quarter).
  - reflexivity.
  - reflexivity.
  - reflexivity.
  - cbn. lia.
  - reflexivity.
Defined.

Lemma Start_unbuffered_then_signal_waits_witness :
  run (mkworld (NewProgressSpinner "Connecting") [])
      (Start (NewProgressSpinner "Connecting")) =
  Finished (mkworld (set_c (set_wg (NewProgressSpinner "Connecting") 1)
                           (Some (make_chan 0)))
                    [GoRenderSpinner]).
Proof.
  apply (Start_unbuffered_then_signal_waits (NewProgressSpinner "Connecting")).
  - left. reflexivity.
  - discriminate.
Defined.

Lemma UpdatePrompt_next_frame_witness :
  run (mkworld (NewProgressSpinner "Connecting") [])
      (UpdatePrompt "Resolving" ++ UpdatePrompt "Connected") =
  Finished (mkworld (set_Prompt (NewProgressSpinner "Connecting") "Connected") []).
Proof.
  apply (UpdatePrompt_next_frame sgr (mkworld (NewProgressSpinner "Connecting") [])
           "Resolving" "Connected" (NewProgressSpinner "Connecting") 0 []).
  - discriminate.
  - discriminate.
  - split; [discriminate|reflexivity].
Defined.

Section LoopSafety.

Variable ApplyTo : Color -> string -> string.

(** With a non-empty frame table the spinner and the loading indicator
    never panic: the index stays inside the table for every iteration
    count an [int] can hold, and the erase line has a non-negative length
    for prompts that fit in memory. *)
Theorem loops_never_panic (p : Progress) (first : string) (evs : list (event Z)) :
  nth_error (spinsteps p) 0 = Some first ->
  idle_count evs <= int_max ->
  len first + len (Prompt p) + 3 <= int_max ->
  (forall s, In (SetPrompt s) evs -> len first + len s + 3 <= int_max) ->
  snd (renderSpinner ApplyTo p evs) <> Panicked /\
  snd (renderLoading p evs) <> Panicked.
Proof.
  intros Hfirst Hmax Hlen Hprompts.
  assert (Hne : spinsteps p <> []) by (destruct (spinsteps p); discriminate).
  assert (Hs : forall evs p i,
            spinsteps p <> [] -> 0 <= i -> i + idle_count evs <= int_max ->
            snd (spinner_loop ApplyTo p i evs) <> Panicked).
  { clear. induction evs as [|ev evs IH]; intros p i Hne Hi Hmax; [discriminate|].
    pose proof (idle_count_nonneg evs) as Hc.
    destruct ev as [s|v| | |]; cbn [spinner_loop idle_count] in *;
      try discriminate; try (apply IH; assumption).
    destruct (spinLookup_some i (spinsteps p) Hne Hi) as (fr & ->).
    rewrite int_add_exact by (apply in_int_small; lia).
    apply IH; [assumption|lia|lia]. }
  assert (Hres : forall p, nth_error (spinsteps p) 0 = Some first ->
            len first + len (Prompt p) + 3 <= int_max ->
            snd (loading_result p) <> Panicked).
  { clear. intros p Hfirst Hlen.
    pose proof (len_nonneg first). pose proof (len_nonneg (Prompt p)).
    unfold loading_result. rewrite Hfirst.
    rewrite (int_add_exact (len first) (len (Prompt p))) by (apply in_int_small; lia).
    rewrite int_add_exact by (apply in_int_small; lia).
    rewrite Repeat_nonneg by lia. discriminate. }
  assert (Hl : forall evs p i,
            nth_error (spinsteps p) 0 = Some first ->
            0 <= i -> i + idle_count evs <= int_max ->
            len first + len (Prompt p) + 3 <= int_max ->
            (forall s, In (SetPrompt s) evs -> len first + len s + 3 <= int_max) ->
            snd (loading_loop p i evs) <> Panicked).
  { clear - Hres. induction evs as [|ev evs IH]; intros p i Hfirst Hi Hmax Hlen Hpr;
      [discriminate|].
    pose proof (idle_count_nonneg evs) as Hc.
    assert (Hpr' : forall s, In (SetPrompt s) evs -> len first + len s + 3 <= int_max)
      by (intros s Hs; apply Hpr; right; exact Hs).
    destruct ev as [s|v| | |]; cbn [loading_loop idle_count] in *;
      try (apply Hres; assumption); try (apply IH; assumption).
    - apply IH; try assumption. apply Hpr. left. reflexivity.
    - assert (Hne : spinsteps p <> []) by (destruct (spinsteps p); discriminate).
      destruct (spinLookup_some i (spinsteps p) Hne Hi) as (fr & ->).
      rewrite int_add_exact by (apply in_int_small; lia).
      apply IH; try assumption; lia. }
  split; [apply Hs; [assumption|lia|lia]|].
  unfold renderLoading. destruct (0 <? delay p); [|apply Hl; try assumption; lia].
  clear Hs Hne. revert p Hfirst Hlen.
  induction evs as [|ev evs IH]; intros p Hfirst Hlen; [discriminate|].
  pose proof (idle_count_nonneg evs) as Hc.
  assert (Hpr' : forall s, In (SetPrompt s) evs -> len first + len s + 3 <= int_max)
    by (intros s Hs; apply Hprompts; right; exact Hs).
  destruct ev as [s|v| | |]; cbn [loading_gate idle_count] in *; try discriminate.
  - apply IH; try assumption. apply Hprompts. left. reflexivity.
  - apply IH; try assumption. lia.
  - apply Hl; try assumption; lia.
Qed.

End LoopSafety.

(** Each of the four predefined tables is non-empty and its frames all
    have the byte length of the first one. *)
Theorem predefined_spinners_uniform (table : Spinner) :
  In table [Wheel; Bouncing; Clock; Dots] ->
  exists first : string,
    nth_error table 0 = Some first /\
    forall frame, In frame table -> len frame = len first.
Proof.
  intros [<-|[<-|[<-|[<-|[]]]]]; eexists; (split; [reflexivity|]);
    intros frame H; cbn [In] in H;
    repeat (destruct H as [<-|H]; [reflexivity|]); destruct H.
Qed.

Lemma loops_never_panic_witness :
  snd (renderSpinner sgr (NewLoadingMessage "Pinging" Dots 0)
         [Empty; SetPrompt "Still pinging"; Empty; Got success]) <> Panicked /\
  snd (renderLoading (NewLoadingMessage "Pinging" Dots 0)
         [Empty; SetPrompt "Still pinging"; Empty; Got success]) <> Panicked.
Proof.
  apply (loops_never_panic sgr (NewLoadingMessage "Pinging" Dots 0) "⠋"
           [Empty; SetPrompt "Still pinging"; Empty; Got success]).
  - reflexivity.
  - discriminate.
  - discriminate.
  - intros s [H|[H|[H|[H|[]]]]]; try discriminate H. injection H as <-. discriminate.
Defined.

Lemma predefined_spinners_uniform_witness :
  exists first : string,
    nth_error Clock 0 = Some first /\
    forall frame, In frame Clock -> len frame = len first.
Proof.
  apply (predefined_spinners_uniform Clock).
  right. right. left. reflexivity.
Defined.
